(** * KoeKit: wavetables, oscillators, filters, envelopes and PWM output

    A shallow embedding of the numeric core of KoeKit
    (src/core/wavetable_generator.h, oscillator.h, filter.h, envelope.h,
    wavetables/basic.h and audio_output.cpp).

    Number model.  The C++ [float] and [double] quantities are modelled by
    rationals [Q]; infinities and NaN are outside the model.  The sample
    path of the one-pole filter rounds every operation to binary32
    ([round32]), because what it promises about its two outputs is a
    statement about that rounding; everywhere else an arithmetic operation
    is the exact one.  Integers keep their machine meaning: [uint32_t] is
    a [Z] reduced modulo [2^32], [int16_t] and [uint16_t] are [Z],
    [size_t] indices are [nat].  The libm
    functions [std::exp] and [std::sin] used by the filter coefficient
    updates are parameters of the model; the sine wavetable is quantised
    from the real sine of the Standard Library. *)

From Stdlib Require Import Reals Qreals Lra.
From Stdlib Require Import ZArith QArith Qround Qabs Qpower Qminmax Lia Lqa.
From Stdlib Require Import List Bool.
Import ListNotations.

Local Open Scope Z_scope.
Local Open Scope Q_scope.

(** ** Shared numeric helpers *)

(** Comparisons of the C++ source as boolean tests. *)
Definition Qltb (a b : Q) : bool := negb (Qle_bool b a).
Definition Qleb (a b : Q) : bool := Qle_bool a b.
Definition Qgeb (a b : Q) : bool := Qle_bool b a.

(** [std::clamp(v, lo, hi)]: [(v < lo) ? lo : (hi < v) ? hi : v]. *)
Definition std_clamp (v lo hi : Q) : Q :=
  if Qltb v lo then lo else if Qltb hi v then hi else v.

(** [std::max(a, b)]: [(a < b) ? b : a]. *)
Definition std_max (a b : Q) : Q :=
  if Qltb a b then b else a.

(** [std::clamp] on integers. *)
Definition std_clampZ (v lo hi : Z) : Z :=
  if (v <? lo)%Z then lo else if (hi <? v)%Z then hi else v.

(** [static_cast<integer>(x)]: truncation toward zero. *)
Definition Qtrunc (x : Q) : Z := Z.quot (Qnum x) (Zpos (Qden x)).

(** [float] rounding: the binary32 value nearest to a rational, ties to
    the even significand.  [Qilog2 q] is the binary exponent of a positive
    [q]; the unit in the last place is [2 ^ (exponent - 23)] for the 24-bit
    significand, and [2 ^ -149] in the subnormal range.  Results beyond the
    largest float (infinities) are outside the model. *)
Definition Qilog2 (q : Q) : Z :=
  let k := (Z.log2 (Qnum q) - Z.log2 (Zpos (Qden q)))%Z in
  if Qle_bool (2 ^ k) q then k else (k - 1)%Z.

Definition round_half_even (t : Q) : Z :=
  let f := Qfloor t in
  let r := t - inject_Z f in
  if Qltb r (1 # 2) then f
  else if Qltb (1 # 2) r then (f + 1)%Z
  else if Z.even f then f else (f + 1)%Z.

Definition round32 (q : Q) : Q :=
  if Qeq_bool q 0 then 0
  else
    let e := Z.max (Qilog2 (Qabs q) - 23) (-149) in
    inject_Z (round_half_even (q / 2 ^ e)) * 2 ^ e.

(** Half a unit in the last place of 1, and half the smallest subnormal. *)
Definition unit_roundoff32 : Q := 1 # 16777216.
Definition eta32 : Q := 2 ^ (-150).

(** [while (x >= m) x -= m;] run for at most [fuel] iterations. *)
Fixpoint sub_loop (fuel : nat) (m x : Q) : Q :=
  match fuel with
  | O => x
  | S k => if Qgeb x m then sub_loop k m (x - m) else x
  end.

(** [while (x < 0) x += m;] run for at most [fuel] iterations. *)
Fixpoint add_loop (fuel : nat) (m x : Q) : Q :=
  match fuel with
  | O => x
  | S k => if Qltb x 0 then add_loop k m (x + m) else x
  end.

(** The two loops with the number of iterations they need: the first
    leaves after [floor (x / m)] subtractions, the second after
    [ceiling (- x / m)] additions (none when the count is negative). *)
Definition while_ge_sub (m x : Q) : Q :=
  sub_loop (Z.to_nat (Qfloor (x / m))) m x.

Definition while_neg_add (m x : Q) : Q :=
  add_loop (Z.to_nat (Qceiling (- x / m))) m x.

(** [n] applications of [f]. *)
Fixpoint iterate {A : Type} (n : nat) (f : A -> A) (a : A) : A :=
  match n with
  | O => a
  | S k => iterate k f (f a)
  end.

(** Core configuration (KoeKit.h). *)
Definition SAMPLE_RATE : Z := 22050.
Definition WAVETABLE_SIZE : nat := 1024.
Definition SAMPLE_RATE_F : Q := inject_Z SAMPLE_RATE.
(** [M_PI], the double nearest to pi: 884279719003555 / 2^48. *)
Definition M_PI : Q := 884279719003555 # 281474976710656.

(** ** wavetable_generator.h *)

Definition SAMPLE_SCALE : Q := 32767.

Module Wavetable.

(** [std::array<int16_t, SIZE>]: the list has exactly [SIZE] entries. *)
Record t := mk { samples_ : list Z }.

Definition SIZE (w : t) : nat := length (samples_ w).

Definition getSample (w : t) (index : nat) : Z :=
  nth (index mod SIZE w) (samples_ w) 0%Z.

Definition getInterpolated (w : t) (index : Q) : Q :=
  let size := inject_Z (Z.of_nat (SIZE w)) in
  let index := while_ge_sub size index in
  let index := while_neg_add size index in
  let i1 := Z.to_nat (Qtrunc index) in
  let i2 := ((i1 + 1) mod SIZE w)%nat in
  let frac := index - inject_Z (Z.of_nat i1) in
  let s1 := inject_Z (nth i1 (samples_ w) 0%Z) in
  let s2 := inject_Z (nth i2 (samples_ w) 0%Z) in
  (s1 + frac * (s2 - s1)) / SAMPLE_SCALE.

Definition size (w : t) : nat := SIZE w.
Definition data (w : t) : list Z := samples_ w.

End Wavetable.

(** [makeWavetable<SIZE>(generator)] for a generator with rational values:
    clamp to [-1,1], scale by 32767 and cast to [int16_t]. *)
Definition quantize (v : Q) : Z := Qtrunc (std_clamp v (-1) 1 * SAMPLE_SCALE).

Definition makeWavetable (SIZE : nat) (generator : nat -> Q) : Wavetable.t :=
  Wavetable.mk (map (fun i => quantize (generator i)) (seq 0 SIZE)).

(** The same construction for a generator that calls libm, whose values
    are real numbers. *)
Definition Rtrunc (x : R) : Z :=
  if Rle_dec 0 x then Int_part x else (- Int_part (- x))%Z.

Definition std_clampR (v lo hi : R) : R :=
  if Rlt_dec v lo then lo else if Rlt_dec hi v then hi else v.

Definition quantizeR (v : R) : Z := Rtrunc (std_clampR v (-1) 1 * 32767)%R.

Definition makeWavetableR (SIZE : nat) (generator : nat -> R) : Wavetable.t :=
  Wavetable.mk (map (fun i => quantizeR (generator i)) (seq 0 SIZE)).



Module WavetableBank.

(** [std::array<Wavetable<WaveSize>, NumWaves>]. *)
Record t := mk { waves_ : list Wavetable.t }.

Definition numWaves (b : t) : nat := length (waves_ b).

Definition getWave (b : t) (index : nat) : Wavetable.t :=
  nth (index mod numWaves b) (waves_ b) (Wavetable.mk []).

End WavetableBank.

(** ** wavetables/basic.h *)

Module Basic.

Definition BASIC_TABLE_SIZE : nat := WAVETABLE_SIZE.

Definition of_index (i : nat) : Q := inject_Z (Z.of_nat i).

Definition makeSineTable : Wavetable.t :=
  makeWavetableR BASIC_TABLE_SIZE (fun i =>
    let phase := 2 * M_PI * of_index i / of_index BASIC_TABLE_SIZE in
    sin (Q2R phase)).

Definition makeSawTable : Wavetable.t :=
  makeWavetable BASIC_TABLE_SIZE (fun i =>
    2 * of_index i / of_index (BASIC_TABLE_SIZE - 1) - 1).

Definition makeSquareTable : Wavetable.t :=
  makeWavetable BASIC_TABLE_SIZE (fun i =>
    if (i <? BASIC_TABLE_SIZE / 2)%nat then 1 else -1).

Definition makeTriangleTable : Wavetable.t :=
  makeWavetable BASIC_TABLE_SIZE (fun i =>
    if (i <? BASIC_TABLE_SIZE / 2)%nat
    then 4 * of_index i / of_index BASIC_TABLE_SIZE - 1
    else 3 - 4 * of_index i / of_index BASIC_TABLE_SIZE).

Definition makePulseTable : Wavetable.t :=
  makeWavetable BASIC_TABLE_SIZE (fun i =>
    if (i <? BASIC_TABLE_SIZE / 4)%nat then 1 else -1).

Definition SINE := makeSineTable.
Definition SAW := makeSawTable.
Definition SQUARE := makeSquareTable.
Definition TRIANGLE := makeTriangleTable.
Definition PULSE := makePulseTable.

(** The band-limited sawtooth: harmonics 1 to 8 of the sine, each divided
    by its number, the sum scaled by 0.3. *)
Definition makeSoftSawTable : Wavetable.t :=
  makeWavetableR BASIC_TABLE_SIZE (fun i =>
    let phase := Q2R (2 * M_PI * of_index i / of_index BASIC_TABLE_SIZE) in
    let result :=
      fold_left (fun result harmonic =>
                   (result + sin (INR harmonic * phase) / INR harmonic)%R)
                (seq 1 8) 0%R in
    (result * (3 / 10))%R).

Definition SOFT_SAW := makeSoftSawTable.

Definition makeBasicBank : WavetableBank.t :=
  WavetableBank.mk [SINE; SAW; SQUARE; TRIANGLE; SOFT_SAW; PULSE].

Definition BASIC_BANK := makeBasicBank.

Inductive Waveform :=
| W_SINE | W_SAW | W_SQUARE | W_TRIANGLE | W_SOFT_SAW | W_PULSE.

(** [static_cast<size_t>(waveform)]. *)
Definition waveform_index (w : Waveform) : nat :=
  match w with
  | W_SINE => 0 | W_SAW => 1 | W_SQUARE => 2
  | W_TRIANGLE => 3 | W_SOFT_SAW => 4 | W_PULSE => 5
  end.

Definition getWavetable (waveform : Waveform) : Wavetable.t :=
  WavetableBank.getWave BASIC_BANK (waveform_index waveform).

End Basic.

(** ** oscillator.h *)

Module PhaseAccumulator.

Record t := mk { phase_ : Q; increment_ : Q; sample_rate_ : Q }.

Definition init : t := mk 0 0 SAMPLE_RATE_F.

Definition setFrequency (frequency : Q) (p : t) : t :=
  mk (phase_ p) (frequency / sample_rate_ p) (sample_rate_ p).

Definition getCurrentFrequency (p : t) : Q :=
  increment_ p * sample_rate_ p.

Definition setSampleRate (sample_rate : Q) (p : t) : t :=
  let freq := getCurrentFrequency p in
  setFrequency freq (mk (phase_ p) (increment_ p) sample_rate).

Definition tick (p : t) : Q * t :=
  let phase := phase_ p + increment_ p in
  let phase := if Qgeb phase 1 then phase - 1 else phase in
  (phase, mk phase (increment_ p) (sample_rate_ p)).

Definition reset (p : t) : t := mk 0 (increment_ p) (sample_rate_ p).

Definition setPhase (phase : Q) (p : t) : t :=
  let phase := while_ge_sub 1 phase in
  let phase := while_neg_add 1 phase in
  mk phase (increment_ p) (sample_rate_ p).

Definition getPhase (p : t) : Q := phase_ p.

(** The calls of the claim about the accumulator, as a script. *)
Inductive call := Tick | SetPhase (phase : Q) | Reset.

Definition step (c : call) (p : t) : t :=
  match c with
  | Tick => snd (tick p)
  | SetPhase phase => setPhase phase p
  | Reset => reset p
  end.

Definition run (cs : list call) (p : t) : t :=
  fold_left (fun p c => step c p) cs p.

(** The phase is a fraction of a cycle. *)
Definition wrapped (p : t) : Prop := 0 <= phase_ p < 1.

End PhaseAccumulator.

Module WavetableOscillator.

Record t := mk {
  phase_ : PhaseAccumulator.t;
  wavetable_ : Wavetable.t;
  amplitude_ : Q }.

Definition make (wavetable : Wavetable.t) : t :=
  mk PhaseAccumulator.init wavetable 1.

Definition setFrequency (frequency : Q) (o : t) : t :=
  mk (PhaseAccumulator.setFrequency frequency (phase_ o))
     (wavetable_ o) (amplitude_ o).

Definition setAmplitude (amplitude : Q) (o : t) : t :=
  mk (phase_ o) (wavetable_ o) (std_clamp amplitude 0 1).

Definition setPhase (phase : Q) (o : t) : t :=
  mk (PhaseAccumulator.setPhase phase (phase_ o))
     (wavetable_ o) (amplitude_ o).

Definition setWavetable (wavetable : Wavetable.t) (o : t) : t :=
  mk (phase_ o) wavetable (amplitude_ o).

Definition process (o : t) : Q * t :=
  let (phase, pa) := PhaseAccumulator.tick (phase_ o) in
  let table_index :=
    phase * inject_Z (Z.of_nat (Wavetable.SIZE (wavetable_ o))) in
  (Wavetable.getInterpolated (wavetable_ o) table_index * amplitude_ o,
   mk pa (wavetable_ o) (amplitude_ o)).

Definition reset (o : t) : t :=
  mk (PhaseAccumulator.reset (phase_ o)) (wavetable_ o) (amplitude_ o).

Definition setSampleRate (sample_rate : Q) (o : t) : t :=
  mk (PhaseAccumulator.setSampleRate sample_rate (phase_ o))
     (wavetable_ o) (amplitude_ o).

Definition getFrequency (o : t) : Q :=
  PhaseAccumulator.getCurrentFrequency (phase_ o).

Definition getAmplitude (o : t) : Q := amplitude_ o.

(** An oscillator that is ready to play: a non-empty table of
    16-bit-range samples, an amplitude in [0,1], a phase in [0,1) and an
    increment in [0,1) (a frequency from 0 up to the sample rate). *)
Definition ready (o : t) : Prop :=
  (0 < Wavetable.SIZE (wavetable_ o))%nat
  /\ Forall (fun s => (-32767 <= s <= 32767)%Z)
            (Wavetable.samples_ (wavetable_ o))
  /\ 0 <= amplitude_ o <= 1
  /\ 0 <= PhaseAccumulator.increment_ (phase_ o) < 1
  /\ PhaseAccumulator.wrapped (phase_ o).

End WavetableOscillator.

Definition createOscillator (waveform : Basic.Waveform)
  : WavetableOscillator.t :=
  WavetableOscillator.make (Basic.getWavetable waveform).

Module NoiseGenerator.

Definition UINT32_MAX : Z := 4294967295.
Definition wrap32 (x : Z) : Z := (x mod 2 ^ 32)%Z.

(** [state_] is a [uint32_t]: a [Z] in [0, 2^32). *)
Record t := mk { state_ : Z; amplitude_ : Q }.

Definition make (seed : Z) : t :=
  mk (if (seed =? 0)%Z then 1%Z else seed) 1.

Definition setAmplitude (amplitude : Q) (g : t) : t :=
  mk (state_ g) (std_clamp amplitude 0 1).

(** The three xorshift updates of [state_]. *)
Definition xorshift (s : Z) : Z :=
  let s := Z.lxor s (wrap32 (Z.shiftl s 13)) in
  let s := Z.lxor s (Z.shiftr s 17) in
  let s := Z.lxor s (wrap32 (Z.shiftl s 5)) in
  s.

Definition process (g : t) : Q * t :=
  let s := xorshift (state_ g) in
  let random := inject_Z s / inject_Z UINT32_MAX in
  ((random * 2 - 1) * amplitude_ g, mk s (amplitude_ g)).

Definition reset (seed : Z) (g : t) : t :=
  mk (if (seed =? 0)%Z then 1%Z else seed) (amplitude_ g).

Definition getAmplitude (g : t) : Q := amplitude_ g.

End NoiseGenerator.

(** ** filter.h *)

Module OnePole.
Section Libm.

(** [std::exp], a libm function outside the repository. *)
Variable expf : Q -> Q.

Record t := mk {
  y1_ : Q; a0_ : Q; b1_ : Q; sample_rate_ : Q; cutoff_ : Q }.

Definition init : t := mk 0 1 0 SAMPLE_RATE_F 1000.

Definition updateCoefficients (f : t) : t :=
  let omega := 2 * M_PI * cutoff_ f / sample_rate_ f in
  let alpha := 1 - expf (- omega) in
  mk (y1_ f) alpha (1 - alpha) (sample_rate_ f) (cutoff_ f).

Definition setCutoff (cutoff : Q) (f : t) : t :=
  updateCoefficients
    (mk (y1_ f) (a0_ f) (b1_ f) (sample_rate_ f)
        (std_clamp cutoff 1 (sample_rate_ f * (49 # 100)))).

Definition setSampleRate (sample_rate : Q) (f : t) : t :=
  updateCoefficients (mk (y1_ f) (a0_ f) (b1_ f) sample_rate (cutoff_ f)).

(** The sample path in [float] arithmetic: two rounded products and a
    rounded sum (no fused multiply-add), then a rounded subtraction. *)
Definition processLPF (input : Q) (f : t) : Q * t :=
  let y1 := round32 (round32 (a0_ f * input) + round32 (b1_ f * y1_ f)) in
  (y1, mk y1 (a0_ f) (b1_ f) (sample_rate_ f) (cutoff_ f)).

Definition processHPF (input : Q) (f : t) : Q * t :=
  let (lpf_out, f') := processLPF input f in
  (round32 (input - lpf_out), f').

Definition reset (f : t) : t :=
  mk 0 (a0_ f) (b1_ f) (sample_rate_ f) (cutoff_ f).

Definition getCutoff (f : t) : Q := cutoff_ f.

End Libm.
End OnePole.

Module StateVariable.
Section Libm.

(** [std::sin], a libm function outside the repository. *)
Variable sinf : Q -> Q.

Record t := mk {
  low_ : Q; band_ : Q; high_ : Q; f_ : Q; q_ : Q;
  sample_rate_ : Q; cutoff_ : Q; resonance_ : Q }.

Definition init : t := mk 0 0 0 0 1 SAMPLE_RATE_F 1000 (7 # 10).

Definition updateCoefficients (s : t) : t :=
  let f := 2 * sinf (M_PI * cutoff_ s / sample_rate_ s) in
  let q := 1 / resonance_ s in
  mk (low_ s) (band_ s) (high_ s)
     (std_clamp f 0 (19 # 10)) (std_clamp q (1 # 100) 2)
     (sample_rate_ s) (cutoff_ s) (resonance_ s).

Definition setParams (cutoff resonance : Q) (s : t) : t :=
  updateCoefficients
    (mk (low_ s) (band_ s) (high_ s) (f_ s) (q_ s) (sample_rate_ s)
        (std_clamp cutoff 1 (sample_rate_ s * (45 # 100)))
        (std_clamp resonance (1 # 10) 10)).

Definition setCutoff (cutoff : Q) (s : t) : t :=
  setParams cutoff (resonance_ s) s.

Definition setResonance (resonance : Q) (s : t) : t :=
  setParams (cutoff_ s) resonance s.

Definition getCutoff (s : t) : Q := cutoff_ s.
Definition getResonance (s : t) : Q := resonance_ s.

Definition setSampleRate (sample_rate : Q) (s : t) : t :=
  updateCoefficients
    (mk (low_ s) (band_ s) (high_ s) (f_ s) (q_ s) sample_rate
        (cutoff_ s) (resonance_ s)).

(** [if (std::abs(x) < 1e-10f) x = 0.0f;] *)
Definition snap (x : Q) : Q :=
  if Qltb (Qabs x) (1 # 10000000000) then 0 else x.

Definition process (input : Q) (s : t) : t :=
  let low := low_ s + f_ s * band_ s in
  let high := input - low - q_ s * band_ s in
  let band := band_ s + f_ s * high in
  mk (snap low) (snap band) (snap high) (f_ s) (q_ s)
     (sample_rate_ s) (cutoff_ s) (resonance_ s).

Definition getLowPass (s : t) : Q := low_ s.
Definition getHighPass (s : t) : Q := high_ s.
Definition getBandPass (s : t) : Q := band_ s.
Definition getNotch (s : t) : Q := low_ s + high_ s.

Definition reset (s : t) : t :=
  mk 0 0 0 (f_ s) (q_ s) (sample_rate_ s) (cutoff_ s) (resonance_ s).

End Libm.
End StateVariable.

Module Biquad.
Section Libm.

(** [std::sin], [std::cos], [std::sinh] and [std::log], libm functions
    outside the repository. *)
Variables sinf cosf sinhf logf : Q -> Q.

Record t := mk {
  x1_ : Q; x2_ : Q; y1_ : Q; y2_ : Q;
  b0_ : Q; b1_ : Q; b2_ : Q; a1_ : Q; a2_ : Q;
  sample_rate_ : Q }.

Definition init : t := mk 0 0 0 0 1 0 0 0 0 SAMPLE_RATE_F.

Definition with_coefficients (b0 b1 b2 a1 a2 : Q) (f : t) : t :=
  mk (x1_ f) (x2_ f) (y1_ f) (y2_ f) b0 b1 b2 a1 a2 (sample_rate_ f).

Definition setCoefficients (b0 b1 b2 a1 a2 : Q) (f : t) : t :=
  with_coefficients b0 b1 b2 a1 a2 f.

Definition setLowPass (cutoff : Q) (f : t) : t :=
  let omega := 2 * M_PI * cutoff / sample_rate_ f in
  let sin_omega := sinf omega in
  let cos_omega := cosf omega in
  let alpha := sin_omega / (2 * (7071 # 10000)) in
  let a0 := 1 + alpha in
  with_coefficients
    ((1 - cos_omega) / (2 * a0))
    ((1 - cos_omega) / a0)
    ((1 - cos_omega) / (2 * a0))
    ((-2 * cos_omega) / a0)
    ((1 - alpha) / a0) f.

Definition setHighPass (cutoff : Q) (f : t) : t :=
  let omega := 2 * M_PI * cutoff / sample_rate_ f in
  let sin_omega := sinf omega in
  let cos_omega := cosf omega in
  let alpha := sin_omega / (2 * (7071 # 10000)) in
  let a0 := 1 + alpha in
  with_coefficients
    ((1 + cos_omega) / (2 * a0))
    (- (1 + cos_omega) / a0)
    ((1 + cos_omega) / (2 * a0))
    ((-2 * cos_omega) / a0)
    ((1 - alpha) / a0) f.

Definition setBandPass (center bandwidth : Q) (f : t) : t :=
  let omega := 2 * M_PI * center / sample_rate_ f in
  let sin_omega := sinf omega in
  let cos_omega := cosf omega in
  let alpha :=
    sin_omega * sinhf (logf 2 / 2 * bandwidth * omega / sin_omega) in
  let a0 := 1 + alpha in
  with_coefficients
    (alpha / a0) 0 (- alpha / a0)
    ((-2 * cos_omega) / a0)
    ((1 - alpha) / a0) f.

Definition process (input : Q) (f : t) : Q * t :=
  let output :=
    b0_ f * input + b1_ f * x1_ f + b2_ f * x2_ f
    - a1_ f * y1_ f - a2_ f * y2_ f in
  (output,
   mk input (x1_ f) output (y1_ f)
      (b0_ f) (b1_ f) (b2_ f) (a1_ f) (a2_ f) (sample_rate_ f)).

Definition reset (f : t) : t :=
  mk 0 0 0 0 (b0_ f) (b1_ f) (b2_ f) (a1_ f) (a2_ f) (sample_rate_ f).

Definition setSampleRate (sample_rate : Q) (f : t) : t :=
  mk (x1_ f) (x2_ f) (y1_ f) (y2_ f)
     (b0_ f) (b1_ f) (b2_ f) (a1_ f) (a2_ f) sample_rate.

(** A run of [process] calls: the outputs in order and the final state. *)
Fixpoint process_all (inputs : list Q) (f : t) : list Q * t :=
  match inputs with
  | [] => ([], f)
  | x :: rest =>
      let (y, f') := process x f in
      let (ys, f'') := process_all rest f' in
      (y :: ys, f'')
  end.

End Libm.
End Biquad.

Module DCBlocker.

Record t := mk { x1_ : Q; y1_ : Q }.

Definition POLE : Q := 995 # 1000.

Definition init : t := mk 0 0.

Definition process (input : Q) (f : t) : Q * t :=
  let output := input - x1_ f + POLE * y1_ f in
  (output, mk input output).

Definition reset (f : t) : t := mk 0 0.

End DCBlocker.

(** ** envelope.h *)

Module ADSR.

Inductive Stage := IDLE | ATTACK | DECAY | SUSTAIN | RELEASE.

Record t := mk {
  stage_ : Stage;
  level_ : Q;
  target_ : Q;
  increment_ : Q;
  attack_time_ : Q;
  decay_time_ : Q;
  sustain_level_ : Q;
  release_time_ : Q;
  sample_rate_ : Q;
  attack_inc_ : Q;
  decay_inc_ : Q;
  release_inc_ : Q }.

Definition init : t :=
  mk IDLE 0 0 0 (1 # 100) (1 # 10) (7 # 10) (3 # 10) SAMPLE_RATE_F 0 0 0.

(** The run-time part of the state: stage, level, target, increment. *)
Definition with_run (st : Stage) (level target increment : Q) (e : t) : t :=
  mk st level target increment
     (attack_time_ e) (decay_time_ e) (sustain_level_ e) (release_time_ e)
     (sample_rate_ e) (attack_inc_ e) (decay_inc_ e) (release_inc_ e).

Definition updateIncrements (e : t) : t :=
  mk (stage_ e) (level_ e) (target_ e) (increment_ e)
     (attack_time_ e) (decay_time_ e) (sustain_level_ e) (release_time_ e)
     (sample_rate_ e)
     (1 / (attack_time_ e * sample_rate_ e))
     ((1 - sustain_level_ e) / (decay_time_ e * sample_rate_ e))
     (sustain_level_ e / (release_time_ e * sample_rate_ e)).

Definition setADSR (attack decay sustain release : Q) (e : t) : t :=
  updateIncrements
    (mk (stage_ e) (level_ e) (target_ e) (increment_ e)
        (std_max (1 # 1000) attack)
        (std_max (1 # 1000) decay)
        (std_clamp sustain 0 1)
        (std_max (1 # 1000) release)
        (sample_rate_ e) (attack_inc_ e) (decay_inc_ e) (release_inc_ e)).

Definition setAttack (attack : Q) (e : t) : t :=
  setADSR attack (decay_time_ e) (sustain_level_ e) (release_time_ e) e.
Definition setDecay (decay : Q) (e : t) : t :=
  setADSR (attack_time_ e) decay (sustain_level_ e) (release_time_ e) e.
Definition setSustain (sustain : Q) (e : t) : t :=
  setADSR (attack_time_ e) (decay_time_ e) sustain (release_time_ e) e.
Definition setRelease (release : Q) (e : t) : t :=
  setADSR (attack_time_ e) (decay_time_ e) (sustain_level_ e) release e.

Definition noteOn (e : t) : t :=
  with_run ATTACK (level_ e) 1 (attack_inc_ e) e.

Definition noteOff (e : t) : t :=
  match stage_ e with
  | IDLE => e
  | _ => with_run RELEASE (level_ e) 0 (- release_inc_ e) e
  end.

Definition process (e : t) : Q * t :=
  let e' :=
    match stage_ e with
    | IDLE => with_run IDLE 0 (target_ e) (increment_ e) e
    | ATTACK =>
        let level := level_ e + increment_ e in
        if Qgeb level 1
        then with_run DECAY 1 (sustain_level_ e) (- decay_inc_ e) e
        else with_run ATTACK level (target_ e) (increment_ e) e
    | DECAY =>
        let level := level_ e + increment_ e in
        if Qleb level (sustain_level_ e)
        then with_run SUSTAIN (sustain_level_ e) (target_ e) 0 e
        else with_run DECAY level (target_ e) (increment_ e) e
    | SUSTAIN =>
        with_run SUSTAIN (sustain_level_ e) (target_ e) (increment_ e) e
    | RELEASE =>
        let level := level_ e + increment_ e in
        if Qleb level 0
        then with_run IDLE 0 (target_ e) 0 e
        else with_run RELEASE level (target_ e) (increment_ e) e
    end in
  (level_ e', e').

Definition process_input (input : Q) (e : t) : Q * t :=
  let (level, e') := process e in (input * level, e').

Definition isActive (e : t) : bool :=
  match stage_ e with IDLE => false | _ => true end.

Definition getStage (e : t) : Stage := stage_ e.
Definition getLevel (e : t) : Q := level_ e.

Definition reset (e : t) : t := with_run IDLE 0 0 0 e.

Definition setSampleRate (sample_rate : Q) (e : t) : t :=
  updateIncrements
    (mk (stage_ e) (level_ e) (target_ e) (increment_ e)
        (attack_time_ e) (decay_time_ e) (sustain_level_ e)
        (release_time_ e) sample_rate
        (attack_inc_ e) (decay_inc_ e) (release_inc_ e)).

(** The public calls, as a script run on an envelope. *)
Inductive call :=
| NoteOn | NoteOff | Reset | Process
| SetADSR (attack decay sustain release : Q)
| SetSampleRate (sample_rate : Q).

Definition step (c : call) (e : t) : t :=
  match c with
  | NoteOn => noteOn e
  | NoteOff => noteOff e
  | Reset => reset e
  | Process => snd (process e)
  | SetADSR a d s r => setADSR a d s r e
  | SetSampleRate sr => setSampleRate sr e
  end.

Definition run (cs : list call) (e : t) : t :=
  fold_left (fun e c => step c e) cs e.

(** Every sample rate a script installs is positive. *)
Definition positive_rate (c : call) : Prop :=
  match c with
  | SetSampleRate sr => 0 < sr
  | _ => True
  end.

(** What every reachable envelope satisfies: the level and the sustain
    level are in [0,1], times and sample rate are positive, the cached
    increments are not negative, and the running increment points up
    during the attack and down during decay and release. *)
Definition inv (e : t) : Prop :=
  (0 <= level_ e <= 1)
  /\ (0 <= sustain_level_ e <= 1)
  /\ (0 < attack_time_ e /\ 0 < decay_time_ e /\ 0 < release_time_ e)
  /\ 0 < sample_rate_ e
  /\ (0 <= attack_inc_ e /\ 0 <= decay_inc_ e /\ 0 <= release_inc_ e)
  /\ match stage_ e with
     | ATTACK => 0 <= increment_ e
     | DECAY | RELEASE => increment_ e <= 0
     | IDLE | SUSTAIN => True
     end.

(** The cached release increment is the one of the current parameters. *)
Definition synced (e : t) : Prop :=
  release_inc_ e == sustain_level_ e / (release_time_ e * sample_rate_ e).

End ADSR.

Module AR.

Inductive Stage := IDLE | ATTACK | RELEASE.

Record t := mk {
  stage_ : Stage;
  level_ : Q;
  increment_ : Q;
  attack_time_ : Q;
  release_time_ : Q;
  sample_rate_ : Q;
  attack_inc_ : Q;
  release_inc_ : Q }.

Definition init : t :=
  mk IDLE 0 0 (1 # 100) (3 # 10) SAMPLE_RATE_F 0 0.

Definition with_run (st : Stage) (level increment : Q) (e : t) : t :=
  mk st level increment (attack_time_ e) (release_time_ e)
     (sample_rate_ e) (attack_inc_ e) (release_inc_ e).

Definition updateIncrements (e : t) : t :=
  mk (stage_ e) (level_ e) (increment_ e)
     (attack_time_ e) (release_time_ e) (sample_rate_ e)
     (1 / (attack_time_ e * sample_rate_ e))
     (1 / (release_time_ e * sample_rate_ e)).

Definition setAR (attack release : Q) (e : t) : t :=
  updateIncrements
    (mk (stage_ e) (level_ e) (increment_ e)
        (std_max (1 # 1000) attack) (std_max (1 # 1000) release)
        (sample_rate_ e) (attack_inc_ e) (release_inc_ e)).

Definition trigger (e : t) : t :=
  with_run ATTACK (level_ e) (attack_inc_ e) e.

Definition process (e : t) : Q * t :=
  let e' :=
    match stage_ e with
    | IDLE => with_run IDLE 0 (increment_ e) e
    | ATTACK =>
        let level := level_ e + increment_ e in
        if Qgeb level 1
        then with_run RELEASE 1 (- release_inc_ e) e
        else with_run ATTACK level (increment_ e) e
    | RELEASE =>
        let level := level_ e + increment_ e in
        if Qleb level 0
        then with_run IDLE 0 0 e
        else with_run RELEASE level (increment_ e) e
    end in
  (level_ e', e').

Definition isActive (e : t) : bool :=
  match stage_ e with IDLE => false | _ => true end.

Definition getStage (e : t) : Stage := stage_ e.
Definition getLevel (e : t) : Q := level_ e.

Definition reset (e : t) : t := with_run IDLE 0 0 e.

Definition setSampleRate (sample_rate : Q) (e : t) : t :=
  updateIncrements
    (mk (stage_ e) (level_ e) (increment_ e)
        (attack_time_ e) (release_time_ e) sample_rate
        (attack_inc_ e) (release_inc_ e)).

Inductive call :=
| Trigger | Reset | Process
| SetAR (attack release : Q)
| SetSampleRate (sample_rate : Q).

Definition step (c : call) (e : t) : t :=
  match c with
  | Trigger => trigger e
  | Reset => reset e
  | Process => snd (process e)
  | SetAR a r => setAR a r e
  | SetSampleRate sr => setSampleRate sr e
  end.

Definition run (cs : list call) (e : t) : t :=
  fold_left (fun e c => step c e) cs e.

Definition positive_rate (c : call) : Prop :=
  match c with
  | SetSampleRate sr => 0 < sr
  | _ => True
  end.

Definition inv (e : t) : Prop :=
  (0 <= level_ e <= 1)
  /\ (0 < attack_time_ e /\ 0 < release_time_ e)
  /\ 0 < sample_rate_ e
  /\ (0 <= attack_inc_ e /\ 0 <= release_inc_ e)
  /\ match stage_ e with
     | ATTACK => 0 <= increment_ e
     | RELEASE => increment_ e <= 0
     | IDLE => True
     end.

End AR.

Module LFO.
Section Libm.

(** [std::sin], a libm function outside the repository. *)
Variable sinf : Q -> Q.

Inductive Waveform :=
| SINE | TRIANGLE | SAWTOOTH | SQUARE | SAMPLE_HOLD | NOISE.

(** [noise_state_] is a [uint32_t]. *)
Record t := mk {
  phase_ : Q;
  frequency_ : Q;
  amplitude_ : Q;
  offset_ : Q;
  waveform_ : Waveform;
  sample_rate_ : Q;
  hold_value_ : Q;
  noise_state_ : Z }.

Definition init : t := mk 0 1 1 0 SINE SAMPLE_RATE_F 0 1%Z.

Definition setFrequency (frequency : Q) (l : t) : t :=
  mk (phase_ l) (std_clamp frequency (1 # 1000) 100) (amplitude_ l)
     (offset_ l) (waveform_ l) (sample_rate_ l) (hold_value_ l)
     (noise_state_ l).

Definition setAmplitude (amplitude : Q) (l : t) : t :=
  mk (phase_ l) (frequency_ l) (std_clamp amplitude 0 1)
     (offset_ l) (waveform_ l) (sample_rate_ l) (hold_value_ l)
     (noise_state_ l).

Definition setOffset (offset : Q) (l : t) : t :=
  mk (phase_ l) (frequency_ l) (amplitude_ l)
     (std_clamp offset (-1) 1) (waveform_ l) (sample_rate_ l)
     (hold_value_ l) (noise_state_ l).

Definition setWaveform (waveform : Waveform) (l : t) : t :=
  mk (phase_ l) (frequency_ l) (amplitude_ l)
     (offset_ l) waveform (sample_rate_ l) (hold_value_ l)
     (noise_state_ l).

(** [(static_cast<float>(noise_state_) / UINT32_MAX) * 2.0f - 1.0f]. *)
Definition noise_value (s : Z) : Q :=
  inject_Z s / inject_Z NoiseGenerator.UINT32_MAX * 2 - 1.

Definition process (l : t) : Q * t :=
  let '(output, hold_value, noise_state) :=
    match waveform_ l with
    | SINE =>
        (sinf (2 * M_PI * phase_ l), hold_value_ l, noise_state_ l)
    | TRIANGLE =>
        (if Qltb (phase_ l) (1 # 2)
         then 4 * phase_ l - 1
         else 3 - 4 * phase_ l,
         hold_value_ l, noise_state_ l)
    | SAWTOOTH =>
        (2 * phase_ l - 1, hold_value_ l, noise_state_ l)
    | SQUARE =>
        (if Qltb (phase_ l) (1 # 2) then 1 else -1,
         hold_value_ l, noise_state_ l)
    | SAMPLE_HOLD =>
        if Qltb (phase_ l) (frequency_ l / sample_rate_ l)
        then
          let noise_state := NoiseGenerator.xorshift (noise_state_ l) in
          let hold_value := noise_value noise_state in
          (hold_value, hold_value, noise_state)
        else (hold_value_ l, hold_value_ l, noise_state_ l)
    | NOISE =>
        let noise_state := NoiseGenerator.xorshift (noise_state_ l) in
        (noise_value noise_state, hold_value_ l, noise_state)
    end in
  let phase := phase_ l + frequency_ l / sample_rate_ l in
  let phase := if Qgeb phase 1 then phase - 1 else phase in
  (output * amplitude_ l + offset_ l,
   mk phase (frequency_ l) (amplitude_ l) (offset_ l) (waveform_ l)
      (sample_rate_ l) hold_value noise_state).

Definition reset (l : t) : t :=
  mk 0 (frequency_ l) (amplitude_ l) (offset_ l) (waveform_ l)
     (sample_rate_ l) 0 (noise_state_ l).

Definition setSampleRate (sample_rate : Q) (l : t) : t :=
  mk (phase_ l) (frequency_ l) (amplitude_ l) (offset_ l) (waveform_ l)
     sample_rate (hold_value_ l) (noise_state_ l).

Definition getFrequency (l : t) : Q := frequency_ l.
Definition getAmplitude (l : t) : Q := amplitude_ l.
Definition getOffset (l : t) : Q := offset_ l.
Definition getWaveform (l : t) : Waveform := waveform_ l.

(** The public calls, as a script run on an LFO. *)
Inductive call :=
| SetFrequency (frequency : Q)
| SetAmplitude (amplitude : Q)
| SetOffset (offset : Q)
| SetWaveform (waveform : Waveform)
| SetSampleRate (sample_rate : Q)
| Process
| Reset.

Definition step (c : call) (l : t) : t :=
  match c with
  | SetFrequency f => setFrequency f l
  | SetAmplitude a => setAmplitude a l
  | SetOffset o => setOffset o l
  | SetWaveform w => setWaveform w l
  | SetSampleRate sr => setSampleRate sr l
  | Process => snd (process l)
  | Reset => reset l
  end.

Definition run (cs : list call) (l : t) : t :=
  fold_left (fun l c => step c l) cs l.

(** Every sample rate a script installs is above the largest frequency
    the LFO accepts. *)
Definition fast_rate (c : call) : Prop :=
  match c with
  | SetSampleRate sr => 100 < sr
  | _ => True
  end.

Definition inv (l : t) : Prop :=
  (0 <= phase_ l < 1)
  /\ ((1 # 1000) <= frequency_ l <= 100)
  /\ (0 <= amplitude_ l <= 1)
  /\ (-1 <= offset_ l <= 1)
  /\ 100 < sample_rate_ l
  /\ (-1 <= hold_value_ l <= 1)
  /\ (0 < noise_state_ l < 2 ^ 32)%Z.

End Libm.
End LFO.

(** ** audio_output.h / audio_output.cpp *)

Module PWMAudioOutput.

Definition PWM_RESOLUTION : Z := 12.
Definition PWM_MAX_VALUE : Z := (Z.shiftl 1 PWM_RESOLUTION - 1)%Z.
Definition PWM_CENTER : Z := (PWM_MAX_VALUE / 2)%Z.

Definition sampleToPWM (sample : Q) : Z :=
  let sample := std_clamp sample (-1) 1 in
  let scaled := (sample + 1) * (1 # 2) in
  let pwm_value := Qtrunc (scaled * inject_Z PWM_MAX_VALUE) in
  std_clampZ pwm_value 0 PWM_MAX_VALUE.

(** The calls the output makes to the board, newest first in the log. *)
Inductive event :=
| PinMode (pin : Z)
| AnalogWriteResolution (bits : Z)
| AnalogWriteFreq (hz : Z)
| AnalogWrite (pin code : Z)
| CancelAlarm (num : Z)
| AlarmInUs (us : Z).

Definition AUDIO_ALARM_NUM : Z := 0.

Section Hardware.

(** The registered [std::function<float()>], and whether the board accepts
    an alarm of a given period. *)
Variable Callback : Type.
Variable alarm_in_us : Z -> bool.

Record t := mk {
  output_pin_ : Z;
  sample_rate_ : Z;
  callback_ : option Callback;
  timer_active_ : bool;
  timer_period_us_ : Z;
  log_ : list event }.

Definition init : t := mk 1 SAMPLE_RATE None false 0 [].

Definition emit (ev : event) (s : t) : t :=
  mk (output_pin_ s) (sample_rate_ s) (callback_ s) (timer_active_ s)
     (timer_period_us_ s) (ev :: log_ s).

Definition setupTimer (s : t) : bool * t :=
  let s := emit (CancelAlarm AUDIO_ALARM_NUM) s in
  let period_us := timer_period_us_ s in
  (alarm_in_us period_us, emit (AlarmInUs period_us) s).

Definition stopTimer (s : t) : t := emit (CancelAlarm AUDIO_ALARM_NUM) s.

Definition setCallback (callback : option Callback) (s : t) : t :=
  mk (output_pin_ s) (sample_rate_ s) callback (timer_active_ s)
     (timer_period_us_ s) (log_ s).

Definition end_ (s : t) : t :=
  let s :=
    if timer_active_ s
    then let s := stopTimer s in
         mk (output_pin_ s) (sample_rate_ s) (callback_ s) false
            (timer_period_us_ s) (log_ s)
    else s in
  let s :=
    if (output_pin_ s =? 255)%Z then s
    else emit (AnalogWrite (output_pin_ s) PWM_CENTER) s in
  setCallback None s.

Definition begin (pin sample_rate : Z) (s : t) : bool * t :=
  let s := if timer_active_ s then end_ s else s in
  let s := mk pin sample_rate (callback_ s) (timer_active_ s)
              (1000000 / sample_rate)%Z (log_ s) in
  let s := emit (PinMode (output_pin_ s)) s in
  let s := emit (AnalogWriteResolution PWM_RESOLUTION) s in
  let s := emit (AnalogWriteFreq 100000) s in
  let s := emit (AnalogWrite (output_pin_ s) PWM_CENTER) s in
  let (ok, s) := setupTimer s in
  if ok
  then (true, mk (output_pin_ s) (sample_rate_ s) (callback_ s) true
                 (timer_period_us_ s) (log_ s))
  else (false, s).

Definition isActive (s : t) : bool := timer_active_ s.
Definition getSampleRate (s : t) : Z := sample_rate_ s.
Definition getOutputPin (s : t) : Z := output_pin_ s.

Definition writeSample (sample : Q) (s : t) : t :=
  let pwm_value := sampleToPWM sample in
  emit (AnalogWrite (output_pin_ s) pwm_value) s.

(** One firing of the alarm; [invoke] is what calling the registered
    callback returns at this firing. *)
Definition handleTimerInterrupt (invoke : Callback -> Q) (s : t) : t :=
  let sample :=
    match callback_ s with
    | Some callback => invoke callback
    | None => 0
    end in
  let s := writeSample sample s in
  if timer_active_ s then emit (AlarmInUs (timer_period_us_ s)) s else s.

(** The codes written to the pin so far, newest first. *)
Definition written_codes (s : t) : list Z :=
  flat_map (fun ev => match ev with AnalogWrite _ code => [code] | _ => [] end)
           (log_ s).

(** Every code written to the pin so far is a valid 12-bit duty. *)
Definition codes_valid (s : t) : Prop :=
  Forall (fun c => (0 <= c <= PWM_MAX_VALUE)%Z) (written_codes s).

End Hardware.

Arguments output_pin_ {Callback}.
Arguments sample_rate_ {Callback}.
Arguments callback_ {Callback}.
Arguments timer_active_ {Callback}.
Arguments timer_period_us_ {Callback}.
Arguments log_ {Callback}.
Arguments emit {Callback}.
Arguments setupTimer {Callback}.
Arguments stopTimer {Callback}.
Arguments setCallback {Callback}.
Arguments end_ {Callback}.
Arguments begin {Callback}.
Arguments isActive {Callback}.
Arguments getSampleRate {Callback}.
Arguments getOutputPin {Callback}.
Arguments writeSample {Callback}.
Arguments handleTimerInterrupt {Callback}.
Arguments written_codes {Callback}.
Arguments codes_valid {Callback}.

End PWMAudioOutput.

Module AudioEngine.
Section Hardware.

(** The user's callback, and the board's answer to arming an alarm. *)
Variable User : Type.
Variable alarm_in_us : Z -> bool.

(** The callback the engine registers with the output:
    [[this]() { return audioCallback(); }]. *)
Inductive lambda := CallAudioCallback.

(** [output_] is null until the first [begin]; [pwm_] is the state of the
    output singleton it then points to. *)
Record t := mk {
  output_ : bool;
  pwm_ : PWMAudioOutput.t lambda;
  user_callback_ : option User;
  initialized_ : bool }.

Definition init : t := mk false (PWMAudioOutput.init lambda) None false.

Definition end_ (e : t) : t :=
  let pwm := if output_ e then PWMAudioOutput.end_ (pwm_ e) else pwm_ e in
  mk (output_ e) pwm None false.

Definition begin (sample_rate output_pin : Z) (e : t) : bool * t :=
  let e := if initialized_ e then end_ e else e in
  let (ok, pwm) :=
    PWMAudioOutput.begin alarm_in_us output_pin sample_rate (pwm_ e) in
  if ok
  then (true,
        mk true (PWMAudioOutput.setCallback (Some CallAudioCallback) pwm)
           (user_callback_ e) true)
  else (false, mk true pwm (user_callback_ e) (initialized_ e)).

Definition setCallback (callback : option User) (e : t) : t :=
  mk (output_ e) (pwm_ e) callback (initialized_ e).

Definition isActive (e : t) : bool :=
  initialized_ e && output_ e && PWMAudioOutput.isActive (pwm_ e).

Definition getSampleRate (e : t) : Z :=
  if output_ e then PWMAudioOutput.getSampleRate (pwm_ e) else 0%Z.

(** [invoke] is what calling the user's callback returns. *)
Definition audioCallback (invoke : User -> Q) (e : t) : Q :=
  match user_callback_ e with
  | Some callback => invoke callback
  | None => 0
  end.

(** One firing of the alarm, seen from the engine. *)
Definition timerISR (invoke : User -> Q) (e : t) : t :=
  mk (output_ e)
     (PWMAudioOutput.handleTimerInterrupt
        (fun _ => audioCallback invoke e) (pwm_ e))
     (user_callback_ e) (initialized_ e).

(** The calls of an application, as a script. *)
Inductive call :=
| Begin (sample_rate output_pin : Z)
| SetCallback (callback : option User)
| End_
| Fire (invoke : User -> Q).

Definition step (c : call) (e : t) : t :=
  match c with
  | Begin sample_rate output_pin => snd (begin sample_rate output_pin e)
  | SetCallback callback => setCallback callback e
  | End_ => end_ e
  | Fire invoke => timerISR invoke e
  end.

Definition run (cs : list call) (e : t) : t :=
  fold_left (fun e c => step c e) cs e.

(** The arguments of [begin] are a [uint32_t] rate, which the period
    computation divides by, and a [uint8_t] pin. *)
Definition valid_call (c : call) : Prop :=
  match c with
  | Begin sample_rate output_pin =>
      (0 < sample_rate < 2 ^ 32)%Z /\ (0 <= output_pin < 256)%Z
  | _ => True
  end.

End Hardware.

Arguments output_ {User}.
Arguments pwm_ {User}.
Arguments user_callback_ {User}.
Arguments initialized_ {User}.
Arguments end_ {User}.
Arguments begin {User}.
Arguments setCallback {User}.
Arguments isActive {User}.
Arguments getSampleRate {User}.
Arguments audioCallback {User}.
Arguments timerISR {User}.
Arguments step {User}.
Arguments run {User}.
Arguments valid_call {User}.

End AudioEngine.

(** * Properties *)

(** ** Values computed from the definitions *)

Example xorshift_of_1 : NoiseGenerator.xorshift 1 = 270369%Z.
Proof. reflexivity. Qed.

Example square_table_samples :
  Wavetable.getSample Basic.SQUARE 0 = 32767%Z
  /\ Wavetable.getSample Basic.SQUARE 512 = (-32767)%Z
  /\ Wavetable.getSample Basic.SQUARE 1024 = 32767%Z.
Proof. vm_compute. auto. Qed.

Example saw_table_halfway :
  Wavetable.getInterpolated Basic.SAW (1023 + (1 # 2)) == 0.
Proof. vm_compute. reflexivity. Qed.

Example pwm_codes :
  PWMAudioOutput.sampleToPWM (1 # 2) = 3071%Z
  /\ PWMAudioOutput.sampleToPWM 5 = 4095%Z
  /\ PWMAudioOutput.sampleToPWM (-3) = 0%Z
  /\ PWMAudioOutput.PWM_CENTER = 2047%Z.
Proof. vm_compute. auto. Qed.

Example setPhase_wraps_both_ways :
  PhaseAccumulator.getPhase
    (PhaseAccumulator.setPhase (7 # 2) PhaseAccumulator.init) == 1 # 2
  /\ PhaseAccumulator.getPhase
       (PhaseAccumulator.setPhase (- (9 # 4)) PhaseAccumulator.init) == 3 # 4.
Proof. split; vm_compute; reflexivity. Qed.

Example adsr_reaches_sustain :
  let e := ADSR.run (ADSR.SetADSR (1 # 1000) (1 # 1000) (1 # 2) (1 # 1000)
                     :: ADSR.NoteOn :: repeat ADSR.Process 60)
                    ADSR.init in
  ADSR.getStage e = ADSR.SUSTAIN /\ ADSR.getLevel e == 1 # 2.
Proof. split; vm_compute; reflexivity. Qed.

(** ** Comparisons and clamping *)

Lemma Qltb_true (a b : Q) : Qltb a b = true <-> a < b.
Proof.
  unfold Qltb. rewrite negb_true_iff, <- not_true_iff_false, Qle_bool_iff.
  split; intro H; [apply Qnot_le_lt | apply Qlt_not_le]; exact H.
Qed.

Lemma Qltb_false (a b : Q) : Qltb a b = false <-> b <= a.
Proof.
  unfold Qltb. rewrite negb_false_iff. apply Qle_bool_iff.
Qed.

Lemma Qleb_true (a b : Q) : Qleb a b = true <-> a <= b.
Proof. apply Qle_bool_iff. Qed.

Lemma Qleb_false (a b : Q) : Qleb a b = false <-> b < a.
Proof.
  unfold Qleb. rewrite <- not_true_iff_false, Qle_bool_iff.
  split; intro H; [apply Qnot_le_lt | apply Qlt_not_le]; exact H.
Qed.

Lemma Qgeb_true (a b : Q) : Qgeb a b = true <-> b <= a.
Proof. apply Qle_bool_iff. Qed.

Lemma Qgeb_false (a b : Q) : Qgeb a b = false <-> a < b.
Proof. apply Qleb_false. Qed.

(** Split on every comparison of the goal and keep its meaning. *)
Ltac qcase :=
  repeat match goal with
  | |- context [Qltb ?a ?b] =>
      let E := fresh "E" in
      destruct (Qltb a b) eqn:E;
      [apply Qltb_true in E | apply Qltb_false in E]
  | |- context [Qleb ?a ?b] =>
      let E := fresh "E" in
      destruct (Qleb a b) eqn:E;
      [apply Qleb_true in E | apply Qleb_false in E]
  | |- context [Qgeb ?a ?b] =>
      let E := fresh "E" in
      destruct (Qgeb a b) eqn:E;
      [apply Qgeb_true in E | apply Qgeb_false in E]
  end.

Lemma std_clamp_range (v lo hi : Q) :
  lo <= hi -> lo <= std_clamp v lo hi <= hi.
Proof. intro H. unfold std_clamp. qcase; lra. Qed.

Lemma std_clamp_inside (v lo hi : Q) :
  lo <= v <= hi -> std_clamp v lo hi = v.
Proof. intro H. unfold std_clamp. qcase; try lra. reflexivity. Qed.

Lemma std_clamp_unit (v : Q) : -1 <= std_clamp v (-1) 1 <= 1.
Proof. apply std_clamp_range. lra. Qed.

Lemma std_clamp_01 (v : Q) : 0 <= std_clamp v 0 1 <= 1.
Proof. apply std_clamp_range. lra. Qed.

Lemma std_max_lower (a b : Q) : a <= std_max a b /\ b <= std_max a b.
Proof. unfold std_max. qcase; lra. Qed.

Lemma Qtrunc_nonneg (x : Q) : 0 <= x -> Qtrunc x = Qfloor x.
Proof.
  destruct x as [n d]. unfold Qle, Qtrunc, Qfloor. simpl. intro H.
  apply Z.quot_div_nonneg; lia.
Qed.

(** ** Wavetable: periodic lookup *)

(** C5: the exact lookup is periodic with the table size: [getSample i]
    and [getSample (i + N)] are the same stored sample, for every table
    (whatever generator built it) and every index. *)
Theorem getSample_periodic (w : Wavetable.t) (i : nat) :
  Wavetable.getSample w (i + Wavetable.SIZE w) = Wavetable.getSample w i.
Proof.
  unfold Wavetable.getSample.
  destruct (Nat.eq_dec (Wavetable.SIZE w) 0) as [E|E].
  - rewrite E, Nat.add_0_r. reflexivity.
  - replace (i + Wavetable.SIZE w)%nat
      with (i + 1 * Wavetable.SIZE w)%nat by lia.
    rewrite Nat.Div0.mod_add. reflexivity.
Qed.

(** The same across the wrap-around of a 32-bit [size_t] sum, for the
    table sizes that divide 2^32 (1024 among them). *)
Lemma getSample_periodic_wrapped (w : Wavetable.t) (i : nat) :
  (Z.of_nat (Wavetable.SIZE w) | 2 ^ 32)%Z ->
  Wavetable.getSample w
    (Z.to_nat ((Z.of_nat i + Z.of_nat (Wavetable.SIZE w)) mod 2 ^ 32))
  = Wavetable.getSample w i.
Proof.
  intro Hdiv. unfold Wavetable.getSample. f_equal.
  apply Nat2Z.inj. rewrite !Nat2Z.inj_mod, Z2Nat.id.
  - rewrite (Z.mod_mod_divide _ _ _ Hdiv).
    replace (Z.of_nat i + Z.of_nat (Wavetable.SIZE w))%Z
      with (Z.of_nat i + 1 * Z.of_nat (Wavetable.SIZE w))%Z by lia.
    apply Z_mod_plus_full.
  - apply Z.mod_pos_bound. reflexivity.
Qed.

Lemma makeWavetable_SIZE (n : nat) (g : nat -> Q) :
  Wavetable.SIZE (makeWavetable n g) = n.
Proof.
  unfold Wavetable.SIZE, makeWavetable. simpl.
  rewrite length_map, length_seq. reflexivity.
Qed.

(** ** PWM output code *)

Lemma sampleToPWM_floor (s : Q) :
  PWMAudioOutput.sampleToPWM s
  = Qfloor ((std_clamp s (-1) 1 + 1) / 2 * 4095).
Proof.
  unfold PWMAudioOutput.sampleToPWM.
  pose proof (std_clamp_unit s) as Hc.
  set (c := std_clamp s (-1) 1) in *.
  change (inject_Z PWMAudioOutput.PWM_MAX_VALUE) with 4095.
  change PWMAudioOutput.PWM_MAX_VALUE with 4095%Z.
  assert (Hq : (c + 1) * (1 # 2) * 4095 == (c + 1) / 2 * 4095) by field.
  rewrite Qtrunc_nonneg by lra.
  rewrite (Qfloor_comp _ _ Hq).
  assert (H0 : (0 <= Qfloor ((c + 1) / 2 * 4095))%Z).
  { apply (Qfloor_resp_le 0). lra. }
  assert (H1 : (Qfloor ((c + 1) / 2 * 4095) <= 4095)%Z).
  { apply (Qfloor_resp_le _ 4095). lra. }
  unfold std_clampZ.
  destruct (Z.ltb_spec (Qfloor ((c + 1) / 2 * 4095)) 0); [lia|].
  destruct (Z.ltb_spec 4095 (Qfloor ((c + 1) / 2 * 4095))); [lia|].
  reflexivity.
Qed.

(** C4: the conversion sends -1 to code 0, +1 to the largest code
    2^12 - 1 = 4095 and 0 to within one code of half the largest code;
    every sample is first clamped to [-1,1] and then mapped linearly by
    (sample + 1) / 2 * max_code, the integer code being that value rounded
    down, so less than one code below it. *)
Theorem sampleToPWM_mapping (s : Q) :
  PWMAudioOutput.PWM_MAX_VALUE = (2 ^ 12 - 1)%Z
  /\ PWMAudioOutput.sampleToPWM (-1) = 0%Z
  /\ PWMAudioOutput.sampleToPWM 1 = PWMAudioOutput.PWM_MAX_VALUE
  /\ Qabs (inject_Z (PWMAudioOutput.sampleToPWM 0)
           - inject_Z PWMAudioOutput.PWM_MAX_VALUE / 2) <= 1
  /\ (let linear := (std_clamp s (-1) 1 + 1) / 2
                    * inject_Z PWMAudioOutput.PWM_MAX_VALUE in
      PWMAudioOutput.sampleToPWM s = Qfloor linear
      /\ linear - 1 < inject_Z (PWMAudioOutput.sampleToPWM s) <= linear
      /\ (0 <= PWMAudioOutput.sampleToPWM s <= PWMAudioOutput.PWM_MAX_VALUE)%Z).
Proof.
  split; [reflexivity|]. split; [reflexivity|]. split; [reflexivity|].
  split; [vm_compute; discriminate|].
  cbv zeta. change (inject_Z PWMAudioOutput.PWM_MAX_VALUE) with 4095.
  change PWMAudioOutput.PWM_MAX_VALUE with 4095%Z.
  rewrite sampleToPWM_floor.
  pose proof (std_clamp_unit s) as Hc.
  set (c := std_clamp s (-1) 1) in *.
  assert (Hq : (c + 1) / 2 * 4095 == (c + 1) * (1 # 2) * 4095) by field.
  assert (Hx : 0 <= (c + 1) / 2 * 4095 <= 4095) by (rewrite Hq; lra).
  clear Hq.
  set (x := (c + 1) / 2 * 4095) in *.
  pose proof (Qfloor_le x) as Hle. pose proof (Qlt_floor x) as Hlt.
  rewrite inject_Z_plus in Hlt. change (inject_Z 1) with 1 in Hlt.
  split; [reflexivity|]. split; [split; lra|].
  split.
  - apply (Qfloor_resp_le 0). lra.
  - apply (Qfloor_resp_le _ 4095). lra.
Qed.

(** ** Noise generator: the xorshift state *)

Lemma lxor_range32 (a b : Z) :
  (0 <= a < 2 ^ 32 -> 0 <= b < 2 ^ 32 -> 0 <= Z.lxor a b < 2 ^ 32)%Z.
Proof.
  intros Ha Hb.
  assert (Hn : (0 <= Z.lxor a b)%Z) by (apply Z.lxor_nonneg; lia).
  split; [exact Hn|].
  destruct (Z.eq_dec (Z.lxor a b) 0) as [E|E]; [rewrite E; reflexivity|].
  apply Z.log2_lt_pow2; [lia|].
  pose proof (Z.log2_lxor a b ltac:(lia) ltac:(lia)) as Hl.
  assert (La : (Z.log2 a < 32)%Z).
  { destruct (Z.eq_dec a 0) as [->|]; [reflexivity|].
    apply Z.log2_lt_pow2; lia. }
  assert (Lb : (Z.log2 b < 32)%Z).
  { destruct (Z.eq_dec b 0) as [->|]; [reflexivity|].
    apply Z.log2_lt_pow2; lia. }
  lia.
Qed.

Lemma wrap32_range (x : Z) : (0 <= NoiseGenerator.wrap32 x < 2 ^ 32)%Z.
Proof. unfold NoiseGenerator.wrap32. apply Z.mod_pos_bound. reflexivity. Qed.

(** [x ^= x << k] keeps a nonzero 32-bit state nonzero: [2^k - 1] is odd,
    so [x = (x * 2^k) mod 2^32] forces [x = 0]. *)
Lemma xor_shl_nonzero (k s : Z) :
  (0 <= k)%Z -> Z.gcd (2 ^ 32) (2 ^ k - 1) = 1%Z ->
  (0 < s < 2 ^ 32)%Z ->
  (0 < Z.lxor s (NoiseGenerator.wrap32 (Z.shiftl s k)) < 2 ^ 32)%Z.
Proof.
  intros Hk Hg Hs.
  pose proof (lxor_range32 s (NoiseGenerator.wrap32 (Z.shiftl s k))
                ltac:(lia) (wrap32_range _)) as Hr.
  enough (Z.lxor s (NoiseGenerator.wrap32 (Z.shiftl s k)) <> 0%Z) by lia.
  intro H0. apply Z.lxor_eq in H0.
  unfold NoiseGenerator.wrap32 in H0.
  rewrite Z.shiftl_mul_pow2 in H0 by exact Hk.
  assert (Hd : (2 ^ 32 | s * (2 ^ k - 1))%Z).
  { exists ((s * 2 ^ k) / 2 ^ 32)%Z.
    pose proof (Z.div_mod (s * 2 ^ k) (2 ^ 32) ltac:(lia)) as Hdm.
    rewrite <- H0 in Hdm. lia. }
  rewrite Z.mul_comm in Hd.
  apply (Z.gauss _ _ _ Hd) in Hg.
  apply Z.divide_pos_le in Hg; lia.
Qed.

(** [x ^= x >> k] keeps a nonzero state nonzero: [x = x / 2^k] forces
    [x = 0]. *)
Lemma xor_shr_nonzero (k s : Z) :
  (0 < k)%Z -> (0 < s < 2 ^ 32)%Z ->
  (0 < Z.lxor s (Z.shiftr s k) < 2 ^ 32)%Z.
Proof.
  intros Hk Hs.
  assert (Hq : (0 <= Z.shiftr s k < s)%Z).
  { rewrite Z.shiftr_div_pow2 by lia. split.
    - apply Z.div_pos; lia.
    - apply Z.div_lt; [lia|]. apply Z.pow_gt_1; lia. }
  pose proof (lxor_range32 s (Z.shiftr s k) ltac:(lia) ltac:(lia)) as Hr.
  enough (Z.lxor s (Z.shiftr s k) <> 0%Z) by lia.
  intro H0. apply Z.lxor_eq in H0. lia.
Qed.

Lemma xorshift_nonzero (s : Z) :
  (0 < s < 2 ^ 32)%Z -> (0 < NoiseGenerator.xorshift s < 2 ^ 32)%Z.
Proof.
  intro Hs. unfold NoiseGenerator.xorshift.
  apply xor_shl_nonzero; [lia | reflexivity |].
  apply xor_shr_nonzero; [lia|].
  apply xor_shl_nonzero; [lia | reflexivity | exact Hs].
Qed.

Lemma noise_seed_nonzero (seed : Z) :
  (0 <= seed < 2 ^ 32)%Z ->
  (0 < (if (seed =? 0)%Z then 1 else seed) < 2 ^ 32)%Z.
Proof. intro H. destruct (Z.eqb_spec seed 0); lia. Qed.

Lemma noise_process_iterate (n : nat) (g : NoiseGenerator.t) :
  (0 < NoiseGenerator.state_ g < 2 ^ 32)%Z ->
  (0 < NoiseGenerator.state_
         (iterate n (fun g => snd (NoiseGenerator.process g)) g) < 2 ^ 32)%Z.
Proof.
  revert g. induction n as [|n IH]; intros g Hg; simpl; [exact Hg|].
  apply IH. simpl. apply xorshift_nonzero. exact Hg.
Qed.

(** C9: seed 0 is stored as state 1, by the constructor and by [reset];
    and from any 32-bit seed the state is a nonzero 32-bit word after any
    number of [process] calls, whether the seed came through the
    constructor or through [reset]: one xorshift update never sends a
    nonzero state to zero. *)
Theorem noise_state_never_zero
    (seed : Z) (n : nat) (g : NoiseGenerator.t)
    (Hseed : (0 <= seed < 2 ^ 32)%Z) :
  NoiseGenerator.state_ (NoiseGenerator.make 0) = 1%Z
  /\ NoiseGenerator.state_ (NoiseGenerator.reset 0 g) = 1%Z
  /\ (0 < NoiseGenerator.state_
            (iterate n (fun g => snd (NoiseGenerator.process g))
                     (NoiseGenerator.make seed)) < 2 ^ 32)%Z
  /\ (0 < NoiseGenerator.state_
            (iterate n (fun g => snd (NoiseGenerator.process g))
                     (NoiseGenerator.reset seed g)) < 2 ^ 32)%Z
  /\ (forall s, (0 < s < 2 ^ 32)%Z ->
        (0 < NoiseGenerator.state_
               (snd (NoiseGenerator.process
                       (NoiseGenerator.mk s (NoiseGenerator.amplitude_ g))))
           < 2 ^ 32)%Z).
Proof.
  split; [reflexivity|]. split; [reflexivity|].
  split; [|split].
  - apply noise_process_iterate. simpl. apply noise_seed_nonzero, Hseed.
  - apply noise_process_iterate. simpl. apply noise_seed_nonzero, Hseed.
  - intros s Hs. simpl. apply xorshift_nonzero, Hs.
Qed.

Lemma noise_state_never_zero_witness :
  (0 <= 0 < 2 ^ 32)%Z
  /\ (0 < NoiseGenerator.state_
            (iterate 3 (fun g => snd (NoiseGenerator.process g))
                     (NoiseGenerator.make 0)) < 2 ^ 32)%Z.
Proof.
  assert (H : (0 <= 0 < 2 ^ 32)%Z) by lia.
  split; [exact H|].
  exact (proj1 (proj2 (proj2
           (noise_state_never_zero 0 3 (NoiseGenerator.make 0) H)))).
Defined.

(** ** The wrap-around loops *)

Lemma Qpos_neq0 (m : Q) : 0 < m -> ~ m == 0.
Proof. intros H E. rewrite E in H. apply (Qlt_irrefl 0), H. Qed.

Lemma inject_Z_le (x y : Z) : (x <= y)%Z -> inject_Z x <= inject_Z y.
Proof. rewrite Zle_Qle. auto. Qed.

Lemma inject_Z_le_inv (x y : Z) : inject_Z x <= inject_Z y -> (x <= y)%Z.
Proof. rewrite Zle_Qle. auto. Qed.

Lemma inject_Z_lt (x y : Z) : (x < y)%Z -> inject_Z x < inject_Z y.
Proof. rewrite Zlt_Qlt. auto. Qed.

Lemma inject_Z_lt_inv (x y : Z) : inject_Z x < inject_Z y -> (x < y)%Z.
Proof. rewrite Zlt_Qlt. auto. Qed.

Lemma Qfloor_lt_intro (y : Q) (z : Z) : y < inject_Z z -> (Qfloor y < z)%Z.
Proof.
  intro H. apply inject_Z_lt_inv. apply Qle_lt_trans with y; [apply Qfloor_le | exact H].
Qed.

Lemma Qceiling_le_elim (y : Q) (z : Z) : (Qceiling y <= z)%Z -> y <= inject_Z z.
Proof.
  intro H. apply Qle_trans with (inject_Z (Qceiling y)).
  - apply Qle_ceiling.
  - apply inject_Z_le, H.
Qed.

Lemma Qceiling_le_intro (y : Q) (z : Z) : y <= inject_Z z -> (Qceiling y <= z)%Z.
Proof.
  intro H. apply (Qceiling_resp_le y (inject_Z z)) in H.
  rewrite Qceiling_Z in H. exact H.
Qed.

Lemma div_step_down (m x : Q) : 0 < m -> (x - m) / m == x / m - 1.
Proof. intro H. field. apply Qpos_neq0, H. Qed.

Lemma div_step_up (m x : Q) : 0 < m -> - (x + m) / m == - x / m - 1.
Proof. intro H. field. apply Qpos_neq0, H. Qed.

Lemma div_lt_one (m x : Q) : 0 < m -> x / m < 1 -> x < m.
Proof.
  intros Hm H. apply (Qmult_lt_compat_r _ _ m Hm) in H.
  assert (E : x / m * m == x) by (field; apply Qpos_neq0, Hm).
  rewrite E in H. lra.
Qed.

Lemma div_neg_le_zero (m x : Q) : 0 < m -> - x / m <= 0 -> 0 <= x.
Proof.
  intros Hm H. apply (Qmult_le_compat_r _ _ m) in H; [|lra].
  assert (E : - x / m * m == - x) by (field; apply Qpos_neq0, Hm).
  rewrite E in H. lra.
Qed.

(** With [floor (x / m)] iterations allowed the subtracting loop has left:
    its exit test [x < m] holds of the result. *)
Lemma sub_loop_spec (m : Q) (fuel : nat) (x : Q) :
  0 < m -> (Qfloor (x / m) <= Z.of_nat fuel)%Z ->
  sub_loop fuel m x < m
  /\ (x < m -> sub_loop fuel m x = x)
  /\ (0 <= x -> 0 <= sub_loop fuel m x)
  /\ exists k : Z, sub_loop fuel m x == x - inject_Z k * m.
Proof.
  intro Hm. revert x. induction fuel as [|fuel IH]; intros x Hf.
  - simpl. assert (Hx : x < m).
    { apply div_lt_one; [exact Hm|].
      apply Qlt_le_trans with (inject_Z (Qfloor (x / m) + 1)).
      - apply Qlt_floor.
      - apply (inject_Z_le _ 1). lia. }
    repeat split; auto. exists 0%Z. ring.
  - cbn [sub_loop]. qcase.
    + destruct (IH (x - m)) as (H1 & H2 & H3 & k & Hk).
      { enough (Qfloor ((x - m) / m) < Z.of_nat (S fuel))%Z by lia.
        apply Qfloor_lt_intro. rewrite (div_step_down m x Hm).
        pose proof (Qlt_floor (x / m)) as Hl.
        rewrite inject_Z_plus in Hl. change (inject_Z 1) with 1 in Hl.
        apply inject_Z_le in Hf. lra. }
      repeat split.
      * exact H1.
      * intro Hx. lra.
      * intros _. apply H3. lra.
      * exists (k + 1)%Z. rewrite Hk, inject_Z_plus.
        change (inject_Z 1) with 1. ring.
    + repeat split; auto. exists 0%Z. ring.
Qed.

(** With [ceiling (- x / m)] iterations allowed the adding loop has left:
    its exit test [0 <= x] holds of the result. *)
Lemma add_loop_spec (m : Q) (fuel : nat) (x : Q) :
  0 < m -> (Qceiling (- x / m) <= Z.of_nat fuel)%Z ->
  0 <= add_loop fuel m x
  /\ (0 <= x -> add_loop fuel m x = x)
  /\ (x < m -> add_loop fuel m x < m)
  /\ exists k : Z, add_loop fuel m x == x + inject_Z k * m.
Proof.
  intro Hm. revert x. induction fuel as [|fuel IH]; intros x Hf.
  - simpl. assert (Hx : 0 <= x).
    { apply (div_neg_le_zero m); [exact Hm|].
      apply (Qceiling_le_elim _ 0), Hf. }
    repeat split; auto. exists 0%Z. ring.
  - cbn [add_loop]. qcase.
    + destruct (IH (x + m)) as (H1 & H2 & H3 & k & Hk).
      { enough (Qceiling (- (x + m) / m) <= Z.of_nat (S fuel) - 1)%Z by lia.
        apply Qceiling_le_intro. rewrite (div_step_up m x Hm).
        apply Qceiling_le_elim in Hf.
        unfold Z.sub. rewrite inject_Z_plus, inject_Z_opp.
        change (inject_Z 1) with 1. lra. }
      repeat split.
      * exact H1.
      * intro Hx. lra.
      * intros _. destruct (Qlt_le_dec (x + m) 0) as [Hn|Hp].
        -- apply H3. lra.
        -- rewrite (H2 Hp). lra.
      * exists (k + 1)%Z. rewrite Hk, inject_Z_plus.
        change (inject_Z 1) with 1. ring.
    + repeat split; auto. exists 0%Z. ring.
Qed.

(** Both loops in a row, as in [getInterpolated] and [setPhase]: the
    result lies in [0, m) and differs from the input by a whole number of
    steps; an input already in [0, m) is returned as it is. *)
Lemma wrap_range (m x : Q) :
  0 < m ->
  0 <= while_neg_add m (while_ge_sub m x) < m
  /\ (0 <= x < m -> while_neg_add m (while_ge_sub m x) = x)
  /\ exists k : Z, while_neg_add m (while_ge_sub m x) == x + inject_Z k * m.
Proof.
  intro Hm. unfold while_neg_add, while_ge_sub.
  set (n := Z.to_nat (Qfloor (x / m))).
  destruct (sub_loop_spec m n x Hm) as (A1 & A2 & A3 & ka & Hka).
  { unfold n. lia. }
  set (y := sub_loop n m x) in *.
  set (n' := Z.to_nat (Qceiling (- y / m))).
  destruct (add_loop_spec m n' y Hm) as (B1 & B2 & B3 & kb & Hkb).
  { unfold n'. lia. }
  split; [split; auto|]. split.
  - intros [Hx0 Hx1]. rewrite B2; rewrite (A2 Hx1); auto.
  - exists (kb - ka)%Z. rewrite Hkb, Hka.
    unfold Z.sub. rewrite inject_Z_plus, inject_Z_opp. ring.
Qed.

Lemma Qfloor_plus1 (y : Q) : Qfloor (y + 1) = (Qfloor y + 1)%Z.
Proof.
  pose proof (Qfloor_le y) as H1. pose proof (Qlt_floor y) as H2.
  pose proof (Qfloor_le (y + 1)) as H3. pose proof (Qlt_floor (y + 1)) as H4.
  rewrite inject_Z_plus in H2, H4. change (inject_Z 1) with 1 in *.
  set (a := Qfloor y) in *. set (b := Qfloor (y + 1)) in *.
  assert (C1 : inject_Z b < inject_Z (a + 2)).
  { rewrite inject_Z_plus. change (inject_Z 2) with 2. lra. }
  assert (C2 : inject_Z a < inject_Z b) by lra.
  apply inject_Z_lt_inv in C1, C2. lia.
Qed.

Lemma Qceiling_plus1 (y : Q) : Qceiling (y + 1) = (Qceiling y + 1)%Z.
Proof.
  unfold Qceiling.
  assert (E : - y == - (y + 1) + 1) by ring.
  rewrite (Qfloor_comp _ _ E), Qfloor_plus1. lia.
Qed.

(** The loops satisfy the equations of the [while] statements they
    stand for. *)
Lemma while_ge_sub_unfold (m x : Q) :
  0 < m ->
  while_ge_sub m x == if Qgeb x m then while_ge_sub m (x - m) else x.
Proof.
  intro Hm. qcase.
  - unfold while_ge_sub.
    assert (Hfl : Qfloor (x / m) = (Qfloor ((x - m) / m) + 1)%Z).
    { rewrite <- Qfloor_plus1. apply Qfloor_comp.
      rewrite (div_step_down m x Hm). ring. }
    assert (H0 : (0 <= Qfloor ((x - m) / m))%Z).
    { apply (Qfloor_resp_le 0). rewrite (div_step_down m x Hm).
      assert (1 <= x / m); [|lra].
      apply Qle_shift_div_l; [exact Hm | lra]. }
    replace (Z.to_nat (Qfloor (x / m)))
      with (S (Z.to_nat (Qfloor ((x - m) / m)))) by lia.
    cbn [sub_loop]. apply Qgeb_true in E. rewrite E. reflexivity.
  - destruct (sub_loop_spec m (Z.to_nat (Qfloor (x / m))) x Hm) as (_ & A & _).
    { lia. }
    unfold while_ge_sub. rewrite (A E). reflexivity.
Qed.

Lemma while_neg_add_unfold (m x : Q) :
  0 < m ->
  while_neg_add m x == if Qltb x 0 then while_neg_add m (x + m) else x.
Proof.
  intro Hm. qcase.
  - unfold while_neg_add.
    assert (Hc : Qceiling (- x / m) = (Qceiling (- (x + m) / m) + 1)%Z).
    { rewrite <- Qceiling_plus1. apply Qceiling_comp.
      rewrite (div_step_up m x Hm). ring. }
    assert (H0 : (0 <= Qceiling (- (x + m) / m))%Z).
    { enough (-1 < Qceiling (- (x + m) / m))%Z by lia.
      apply inject_Z_lt_inv.
      apply Qlt_le_trans with (- (x + m) / m); [|apply Qle_ceiling].
      rewrite (div_step_up m x Hm). change (inject_Z (-1)) with (-1).
      assert (0 < - x / m); [|lra].
      apply Qlt_shift_div_l; [exact Hm | lra]. }
    replace (Z.to_nat (Qceiling (- x / m)))
      with (S (Z.to_nat (Qceiling (- (x + m) / m)))) by lia.
    cbn [add_loop]. apply Qltb_true in E. rewrite E. reflexivity.
  - destruct (add_loop_spec m (Z.to_nat (Qceiling (- x / m))) x Hm)
      as (_ & A & _).
    { lia. }
    unfold while_neg_add. rewrite (A E). reflexivity.
Qed.

(** ** Wavetable: interpolated lookup *)

(** Inside the table the loops of [getInterpolated] do nothing and the
    result is the linear interpolation between two neighbours. *)
Lemma getInterpolated_inside (w : Wavetable.t) (x : Q) :
  0 <= x < inject_Z (Z.of_nat (Wavetable.SIZE w)) ->
  Wavetable.getInterpolated w x
  = (let i1 := Z.to_nat (Qfloor x) in
     let s1 := inject_Z (nth i1 (Wavetable.samples_ w) 0%Z) in
     let s2 := inject_Z (nth ((i1 + 1) mod Wavetable.SIZE w)
                             (Wavetable.samples_ w) 0%Z) in
     (s1 + (x - inject_Z (Z.of_nat i1)) * (s2 - s1)) / SAMPLE_SCALE).
Proof.
  intros [H0 H1]. unfold Wavetable.getInterpolated. cbv zeta.
  destruct (wrap_range (inject_Z (Z.of_nat (Wavetable.SIZE w))) x)
    as (_ & E & _); [lra|].
  rewrite (E (conj H0 H1)), (Qtrunc_nonneg x H0). reflexivity.
Qed.

(** At a whole index the interpolation returns the stored sample of
    [getSample], scaled back by 32767, exactly. *)
Lemma getInterpolated_integer (w : Wavetable.t) (i : nat) :
  (0 < Wavetable.SIZE w)%nat ->
  Wavetable.getInterpolated w (inject_Z (Z.of_nat i))
  == inject_Z (Wavetable.getSample w i) / SAMPLE_SCALE.
Proof.
  intro HN. unfold Wavetable.getInterpolated, Wavetable.getSample. cbv zeta.
  set (N := Wavetable.SIZE w) in *.
  assert (Hm : 0 < inject_Z (Z.of_nat N)) by (apply (inject_Z_lt 0); lia).
  destruct (wrap_range (inject_Z (Z.of_nat N)) (inject_Z (Z.of_nat i)) Hm)
    as ([R0 R1] & _ & k & Hk).
  set (r := while_neg_add _ _) in *.
  rewrite <- inject_Z_mult, <- inject_Z_plus in Hk.
  set (z := (Z.of_nat i + k * Z.of_nat N)%Z) in *.
  assert (Hz : z = Z.of_nat (i mod N)).
  { assert (0 <= z < Z.of_nat N)%Z as Hzr.
    { split; [apply inject_Z_le_inv | apply inject_Z_lt_inv];
        rewrite <- Hk; assumption. }
    rewrite Nat2Z.inj_mod, <- (Z.mod_small z (Z.of_nat N) Hzr).
    unfold z. apply Z_mod_plus_full. }
  rewrite Hz in Hk.
  assert (Ht : Qtrunc r = Z.of_nat (i mod N)).
  { rewrite (Qtrunc_nonneg r R0), (Qfloor_comp _ _ Hk). apply Qfloor_Z. }
  rewrite Ht, Nat2Z.id.
  assert (Hfrac : r - inject_Z (Z.of_nat (i mod N)) == 0) by (rewrite Hk; ring).
  rewrite Hfrac. unfold SAMPLE_SCALE. field.
Qed.

(** C6: for every table with at least one entry and every whole index
    [i], [getInterpolated i] is within 1/32767 of the stored sample
    [getSample i] divided by the full scale 32767 (in exact arithmetic the
    two are equal). *)
Theorem getInterpolated_at_integer (w : Wavetable.t) (i : nat)
    (Hsize : (0 < Wavetable.SIZE w)%nat) :
  Qabs (Wavetable.getInterpolated w (inject_Z (Z.of_nat i))
        - inject_Z (Wavetable.getSample w i) / SAMPLE_SCALE)
  <= 1 # 32767.
Proof.
  rewrite (getInterpolated_integer w i Hsize).
  setoid_replace (inject_Z (Wavetable.getSample w i) / SAMPLE_SCALE
                  - inject_Z (Wavetable.getSample w i) / SAMPLE_SCALE)
    with 0 by ring.
  discriminate.
Qed.

Lemma getInterpolated_at_integer_witness :
  (0 < Wavetable.SIZE Basic.SQUARE)%nat
  /\ Qabs (Wavetable.getInterpolated Basic.SQUARE (inject_Z (Z.of_nat 1500))
           - inject_Z (Wavetable.getSample Basic.SQUARE 1500) / SAMPLE_SCALE)
     <= 1 # 32767.
Proof.
  assert (H : (0 < Wavetable.SIZE Basic.SQUARE)%nat).
  { unfold Basic.SQUARE, Basic.makeSquareTable.
    rewrite makeWavetable_SIZE. unfold Basic.BASIC_TABLE_SIZE, WAVETABLE_SIZE.
    apply Nat.lt_0_succ. }
  split; [exact H|].
  exact (getInterpolated_at_integer Basic.SQUARE 1500 H).
Defined.

(** ** Envelopes: the level stays in [0,1] *)

Lemma Qdiv_nonneg (a b : Q) : 0 <= a -> 0 < b -> 0 <= a / b.
Proof.
  intros Ha Hb. apply Qle_shift_div_l; [exact Hb | lra].
Qed.

Lemma Qmult_pos (a b : Q) : 0 < a -> 0 < b -> 0 < a * b.
Proof. intros Ha Hb. nra. Qed.

Lemma adsr_updateIncrements_inv (e : ADSR.t) :
  0 <= ADSR.level_ e <= 1 ->
  0 <= ADSR.sustain_level_ e <= 1 ->
  0 < ADSR.attack_time_ e -> 0 < ADSR.decay_time_ e ->
  0 < ADSR.release_time_ e -> 0 < ADSR.sample_rate_ e ->
  match ADSR.stage_ e with
  | ADSR.ATTACK => 0 <= ADSR.increment_ e
  | ADSR.DECAY | ADSR.RELEASE => ADSR.increment_ e <= 0
  | _ => True
  end ->
  ADSR.inv (ADSR.updateIncrements e).
Proof.
  intros Hl Hs Ha Hd Hr Hsr Hst. unfold ADSR.inv, ADSR.updateIncrements.
  cbn [ADSR.level_ ADSR.sustain_level_ ADSR.attack_time_ ADSR.decay_time_
       ADSR.release_time_ ADSR.sample_rate_ ADSR.attack_inc_ ADSR.decay_inc_
       ADSR.release_inc_ ADSR.stage_ ADSR.increment_].
  repeat split; try tauto; try lra;
    try (apply Qdiv_nonneg; [lra | apply Qmult_pos; assumption]).
Qed.

Lemma std_max_pos (a b : Q) : 0 < a -> 0 < std_max a b.
Proof. intro H. pose proof (std_max_lower a b). lra. Qed.

Lemma adsr_step_inv (c : ADSR.call) (e : ADSR.t) :
  ADSR.positive_rate c -> ADSR.inv e -> ADSR.inv (ADSR.step c e).
Proof.
  intros Hc (Hl & Hs & (Ha & Hd & Hr) & Hsr & (Hai & Hdi & Hri) & Hst).
  destruct c; cbn [ADSR.step ADSR.positive_rate] in *.
  - (* noteOn *)
    unfold ADSR.inv, ADSR.noteOn, ADSR.with_run; simpl.
    repeat split; try tauto; lra.
  - (* noteOff *)
    unfold ADSR.noteOff.
    destruct (ADSR.stage_ e) eqn:St;
      unfold ADSR.inv, ADSR.with_run; simpl; try rewrite St;
      repeat split; try tauto; lra.
  - (* reset *)
    unfold ADSR.inv, ADSR.reset, ADSR.with_run; simpl.
    repeat split; try tauto; lra.
  - (* process *)
    unfold ADSR.process.
    destruct (ADSR.stage_ e) eqn:St; cbn [snd]; qcase;
      unfold ADSR.inv, ADSR.with_run; simpl;
      repeat split; try tauto; lra.
  - (* setADSR *)
    unfold ADSR.setADSR. apply adsr_updateIncrements_inv; simpl;
      try assumption; try (apply std_max_pos; lra).
    apply std_clamp_01.
  - (* setSampleRate *)
    unfold ADSR.setSampleRate. apply adsr_updateIncrements_inv; simpl;
      assumption.
Qed.

Lemma adsr_init_inv : ADSR.inv ADSR.init.
Proof. unfold ADSR.inv, ADSR.init, SAMPLE_RATE_F; simpl. repeat split; lra. Qed.

Lemma adsr_run_inv (cs : list ADSR.call) (e : ADSR.t) :
  Forall ADSR.positive_rate cs -> ADSR.inv e -> ADSR.inv (ADSR.run cs e).
Proof.
  unfold ADSR.run. revert e.
  induction cs as [|c cs IH]; intros e Hcs He; simpl; [exact He|].
  inversion Hcs; subst. apply IH; [assumption|].
  apply adsr_step_inv; assumption.
Qed.

Lemma ar_updateIncrements_inv (e : AR.t) :
  0 <= AR.level_ e <= 1 ->
  0 < AR.attack_time_ e -> 0 < AR.release_time_ e -> 0 < AR.sample_rate_ e ->
  match AR.stage_ e with
  | AR.ATTACK => 0 <= AR.increment_ e
  | AR.RELEASE => AR.increment_ e <= 0
  | AR.IDLE => True
  end ->
  AR.inv (AR.updateIncrements e).
Proof.
  intros Hl Ha Hr Hsr Hst. unfold AR.inv, AR.updateIncrements.
  cbn [AR.level_ AR.attack_time_ AR.release_time_ AR.sample_rate_
       AR.attack_inc_ AR.release_inc_ AR.stage_ AR.increment_].
  repeat split; try tauto; try lra;
    try (apply Qdiv_nonneg; [lra | apply Qmult_pos; assumption]).
Qed.

Lemma ar_step_inv (c : AR.call) (e : AR.t) :
  AR.positive_rate c -> AR.inv e -> AR.inv (AR.step c e).
Proof.
  intros Hc (Hl & (Ha & Hr) & Hsr & (Hai & Hri) & Hst).
  destruct c; cbn [AR.step AR.positive_rate] in *.
  - unfold AR.inv, AR.trigger, AR.with_run; simpl.
    repeat split; try tauto; lra.
  - unfold AR.inv, AR.reset, AR.with_run; simpl.
    repeat split; try tauto; lra.
  - unfold AR.process.
    destruct (AR.stage_ e) eqn:St; cbn [snd]; qcase;
      unfold AR.inv, AR.with_run; simpl;
      repeat split; try tauto; lra.
  - unfold AR.setAR. apply ar_updateIncrements_inv; simpl;
      try assumption; apply std_max_pos; lra.
  - unfold AR.setSampleRate. apply ar_updateIncrements_inv; simpl;
      assumption.
Qed.

Lemma ar_init_inv : AR.inv AR.init.
Proof. unfold AR.inv, AR.init, SAMPLE_RATE_F; simpl. repeat split; lra. Qed.

Lemma ar_run_inv (cs : list AR.call) (e : AR.t) :
  Forall AR.positive_rate cs -> AR.inv e -> AR.inv (AR.run cs e).
Proof.
  unfold AR.run. revert e.
  induction cs as [|c cs IH]; intros e Hcs He; simpl; [exact He|].
  inversion Hcs; subst. apply IH; [assumption|].
  apply ar_step_inv; assumption.
Qed.

(** C10: start from the fresh envelope (Idle, level 0) and run any script
    of noteOn, noteOff / trigger, reset, setADSR / setAR, setSampleRate and
    process calls in which every sample rate is positive.  Then the level
    that the next [process] call returns, and the level [getLevel] reads,
    are in [0,1] -- for the ADSR and for the AR envelope. *)
Theorem envelope_level_in_unit_interval
    (cs : list ADSR.call) (cs' : list AR.call)
    (Hcs : Forall ADSR.positive_rate cs)
    (Hcs' : Forall AR.positive_rate cs') :
  (0 <= fst (ADSR.process (ADSR.run cs ADSR.init)) <= 1
   /\ 0 <= ADSR.getLevel (ADSR.run cs ADSR.init) <= 1
   /\ ADSR.getLevel (snd (ADSR.process (ADSR.run cs ADSR.init)))
      = fst (ADSR.process (ADSR.run cs ADSR.init)))
  /\ (0 <= fst (AR.process (AR.run cs' AR.init)) <= 1
      /\ 0 <= AR.getLevel (AR.run cs' AR.init) <= 1
      /\ AR.getLevel (snd (AR.process (AR.run cs' AR.init)))
         = fst (AR.process (AR.run cs' AR.init))).
Proof.
  split.
  - pose proof (adsr_run_inv cs ADSR.init Hcs adsr_init_inv) as Hi.
    pose proof (adsr_step_inv ADSR.Process _ I Hi) as Hp.
    destruct Hi as (Hl & _). destruct Hp as (Hl' & _).
    repeat split; try apply Hl; apply Hl'.
  - pose proof (ar_run_inv cs' AR.init Hcs' ar_init_inv) as Hi.
    pose proof (ar_step_inv AR.Process _ I Hi) as Hp.
    destruct Hi as (Hl & _). destruct Hp as (Hl' & _).
    repeat split; try apply Hl; apply Hl'.
Qed.

Lemma envelope_level_in_unit_interval_witness :
  let cs := [ADSR.SetSampleRate 44100; ADSR.SetADSR (1 # 100) (1 # 10) 2 (-1);
             ADSR.NoteOn; ADSR.Process; ADSR.Process; ADSR.NoteOff;
             ADSR.Process] in
  let cs' := [AR.SetAR 0 (1 # 2); AR.Trigger; AR.Process; AR.Trigger;
              AR.Process] in
  Forall ADSR.positive_rate cs /\ Forall AR.positive_rate cs'
  /\ 0 <= fst (ADSR.process (ADSR.run cs ADSR.init)) <= 1
  /\ 0 <= fst (AR.process (AR.run cs' AR.init)) <= 1.
Proof.
  intros cs cs'.
  assert (H : Forall ADSR.positive_rate cs).
  { unfold cs. repeat constructor. }
  assert (H' : Forall AR.positive_rate cs').
  { unfold cs'. repeat constructor. }
  split; [exact H|]. split; [exact H'|].
  pose proof (envelope_level_in_unit_interval cs cs' H H') as [A B].
  split; [exact (proj1 A) | exact (proj1 B)].
Defined.

(** ** ADSR: note-off and the release stage *)

Lemma adsr_noteOff_idle (e : ADSR.t) :
  ADSR.stage_ e = ADSR.IDLE -> ADSR.noteOff e = e.
Proof. intro H. unfold ADSR.noteOff. rewrite H. reflexivity. Qed.

Lemma adsr_noteOff_active (e : ADSR.t) :
  ADSR.stage_ e <> ADSR.IDLE ->
  ADSR.noteOff e
  = ADSR.with_run ADSR.RELEASE (ADSR.level_ e) 0 (- ADSR.release_inc_ e) e.
Proof.
  intro H. unfold ADSR.noteOff.
  destruct (ADSR.stage_ e); [contradiction | reflexivity ..].
Qed.

(** [setADSR] and [setSampleRate] bring the cached release increment up to
    date, and no other call changes it or the parameters it is made of. *)
Lemma adsr_synced_step (c : ADSR.call) (e : ADSR.t) :
  match c with
  | ADSR.SetADSR _ _ _ _ | ADSR.SetSampleRate _ => True
  | _ => ADSR.synced e
  end ->
  ADSR.synced (ADSR.step c e).
Proof.
  unfold ADSR.synced. destruct c; cbn [ADSR.step]; intro H.
  - exact H.
  - unfold ADSR.noteOff. destruct (ADSR.stage_ e); exact H.
  - exact H.
  - unfold ADSR.process.
    destruct (ADSR.stage_ e); cbn [snd]; qcase; exact H.
  - reflexivity.
  - reflexivity.
Qed.

(** One [process] call in the release stage with a falling increment. *)
Lemma adsr_release_step (e : ADSR.t) :
  ADSR.stage_ e = ADSR.RELEASE ->
  snd (ADSR.process e)
  = if Qleb (ADSR.level_ e + ADSR.increment_ e) 0
    then ADSR.with_run ADSR.IDLE 0 (ADSR.target_ e) 0 e
    else ADSR.with_run ADSR.RELEASE (ADSR.level_ e + ADSR.increment_ e)
                       (ADSR.target_ e) (ADSR.increment_ e) e.
Proof. intro H. unfold ADSR.process. rewrite H. reflexivity. Qed.

Lemma div_step_release (l d : Q) : d < 0 -> (l + d) / - d == l / - d - 1.
Proof. intro H. field. lra. Qed.

(** A strictly falling release reaches Idle: at most
    [ceiling (level / -increment) + 1] calls, each of which before the last
    lowers the level by the increment. *)
Lemma adsr_release_terminates (fuel : nat) (e : ADSR.t) :
  ADSR.stage_ e = ADSR.RELEASE ->
  ADSR.increment_ e < 0 ->
  (Qceiling (ADSR.level_ e / - ADSR.increment_ e) <= Z.of_nat fuel)%Z ->
  exists n : nat,
    (1 <= n <= S fuel)%nat
    /\ ADSR.stage_ (iterate n (ADSR.step ADSR.Process) e) = ADSR.IDLE
    /\ ADSR.level_ (iterate n (ADSR.step ADSR.Process) e) = 0
    /\ forall k : nat, (k < n)%nat ->
         ADSR.stage_ (iterate k (ADSR.step ADSR.Process) e) = ADSR.RELEASE
         /\ ADSR.level_ (iterate k (ADSR.step ADSR.Process) e)
            == ADSR.level_ e + inject_Z (Z.of_nat k) * ADSR.increment_ e.
Proof.
  revert e. induction fuel as [|fuel IH]; intros e Hst Hinc Hf.
  - assert (Hl : ADSR.level_ e <= 0).
    { apply Qceiling_le_elim in Hf. change (inject_Z (Z.of_nat 0)) with 0 in Hf.
      assert (E : ADSR.level_ e == ADSR.level_ e / - ADSR.increment_ e
                                   * - ADSR.increment_ e) by (field; lra).
      rewrite E. nra. }
    exists 1%nat. cbn [iterate ADSR.step].
    rewrite (adsr_release_step e Hst).
    assert (Hq : Qleb (ADSR.level_ e + ADSR.increment_ e) 0 = true)
      by (apply Qleb_true; lra).
    rewrite Hq. repeat split; try lia; try reflexivity.
    + destruct k; [exact Hst | lia].
    + destruct k; [simpl; ring | lia].
  - destruct (Qleb (ADSR.level_ e + ADSR.increment_ e) 0) eqn:Hq.
    + exists 1%nat. cbn [iterate ADSR.step].
      rewrite (adsr_release_step e Hst), Hq.
      repeat split; try lia; try reflexivity.
      * destruct k; [exact Hst | lia].
      * destruct k; [simpl; ring | lia].
    + set (e' := snd (ADSR.process e)).
      assert (He' : e' = ADSR.with_run ADSR.RELEASE
                           (ADSR.level_ e + ADSR.increment_ e)
                           (ADSR.target_ e) (ADSR.increment_ e) e).
      { unfold e'. rewrite (adsr_release_step e Hst), Hq. reflexivity. }
      destruct (IH e') as (n & Hn & Hs & Hl & Hk).
      * rewrite He'. reflexivity.
      * rewrite He'. exact Hinc.
      * rewrite He'. cbn [ADSR.with_run ADSR.level_ ADSR.increment_].
        enough (Qceiling ((ADSR.level_ e + ADSR.increment_ e)
                          / - ADSR.increment_ e)
                <= Z.of_nat (S fuel) - 1)%Z by lia.
        apply Qceiling_le_intro. rewrite (div_step_release _ _ Hinc).
        apply Qceiling_le_elim in Hf.
        unfold Z.sub. rewrite inject_Z_plus, inject_Z_opp.
        change (inject_Z 1) with 1. lra.
      * exists (S n). cbn [iterate ADSR.step]. fold e'.
        repeat split; try lia; try assumption.
        -- destruct k as [|k]; [exact Hst|]. intros. cbn [iterate ADSR.step].
           fold e'. apply Hk. lia.
        -- destruct k as [|k]; [simpl; ring|]. cbn [iterate ADSR.step].
           fold e'. destruct (Hk k ltac:(lia)) as [_ Hv]. rewrite Hv, He'.
           cbn [ADSR.with_run ADSR.level_ ADSR.increment_].
           rewrite Nat2Z.inj_succ. unfold Z.succ. rewrite inject_Z_plus.
           change (inject_Z 1) with 1. ring.
Qed.

(** With increment 0 the release stage is a fixed point of [process]. *)
Lemma adsr_release_held (n : nat) (e : ADSR.t) :
  ADSR.stage_ e = ADSR.RELEASE ->
  ADSR.increment_ e == 0 ->
  0 < ADSR.level_ e ->
  ADSR.stage_ (iterate n (ADSR.step ADSR.Process) e) = ADSR.RELEASE
  /\ ADSR.level_ (iterate n (ADSR.step ADSR.Process) e) == ADSR.level_ e.
Proof.
  revert e. induction n as [|n IH]; intros e Hst Hinc Hl.
  - simpl. split; [exact Hst | reflexivity].
  - cbn [iterate ADSR.step]. rewrite (adsr_release_step e Hst).
    assert (Hq : Qleb (ADSR.level_ e + ADSR.increment_ e) 0 = false)
      by (apply Qleb_false; lra).
    rewrite Hq.
    destruct (IH (ADSR.with_run ADSR.RELEASE
                    (ADSR.level_ e + ADSR.increment_ e)
                    (ADSR.target_ e) (ADSR.increment_ e) e))
      as [A B]; try reflexivity.
    + exact Hinc.
    + simpl. lra.
    + split; [exact A|]. rewrite B. simpl. lra.
Qed.

(** What [noteOff] does when the release slope is positive.  On an Idle
    envelope it leaves the whole state as it was.  On an envelope [e] in
    any other stage it sets the
    stage to Release, the target to 0 and the increment to minus the cached
    release increment, which is sustain / (release_seconds * sample_rate)
    whenever the cache is current (any [setADSR] or [setSampleRate] makes
    it so).  When that slope is strictly negative (sustain, release time
    and sample rate positive) the following [process] calls lower the
    level by it, call after call, until the level would be at or below 0;
    that call sets the level to 0 and the stage to Idle. *)
Theorem adsr_noteOff_release (e0 e : ADSR.t)
    (Hidle : ADSR.stage_ e0 = ADSR.IDLE)
    (Hactive : ADSR.stage_ e <> ADSR.IDLE)
    (Hsync : ADSR.synced e)
    (Hsus : 0 < ADSR.sustain_level_ e)
    (Hrel : 0 < ADSR.release_time_ e)
    (Hrate : 0 < ADSR.sample_rate_ e) :
  let slope := ADSR.sustain_level_ e
               / (ADSR.release_time_ e * ADSR.sample_rate_ e) in
  ADSR.noteOff e0 = e0
  /\ ADSR.noteOff e
     = ADSR.with_run ADSR.RELEASE (ADSR.level_ e) 0 (- ADSR.release_inc_ e) e
  /\ ADSR.stage_ (ADSR.noteOff e) = ADSR.RELEASE
  /\ ADSR.increment_ (ADSR.noteOff e) == - slope
  /\ exists n : nat,
       (1 <= n)%nat
       /\ ADSR.stage_ (iterate n (ADSR.step ADSR.Process) (ADSR.noteOff e))
          = ADSR.IDLE
       /\ ADSR.level_ (iterate n (ADSR.step ADSR.Process) (ADSR.noteOff e))
          = 0
       /\ forall k : nat, (k < n)%nat ->
            ADSR.stage_ (iterate k (ADSR.step ADSR.Process) (ADSR.noteOff e))
            = ADSR.RELEASE
            /\ ADSR.level_
                 (iterate k (ADSR.step ADSR.Process) (ADSR.noteOff e))
               == ADSR.level_ e - inject_Z (Z.of_nat k) * slope.
Proof.
  intro slope.
  assert (Hslope : 0 < slope).
  { unfold slope. apply Qlt_shift_div_l; [apply Qmult_pos; assumption | lra]. }
  unfold ADSR.synced in Hsync. fold slope in Hsync.
  split; [apply adsr_noteOff_idle, Hidle|].
  rewrite (adsr_noteOff_active e Hactive).
  split; [reflexivity|]. split; [reflexivity|].
  split; [simpl; rewrite Hsync; reflexivity|].
  set (e1 := ADSR.with_run _ _ _ _ e).
  destruct (adsr_release_terminates
              (Z.to_nat (Qceiling (ADSR.level_ e1 / - ADSR.increment_ e1))) e1)
    as (n & Hn & Hs & Hl & Hk).
  - reflexivity.
  - simpl. lra.
  - lia.
  - exists n. repeat split; try lia; try assumption.
    + apply Hk. assumption.
    + destruct (Hk k H) as [_ Hv]. rewrite Hv. simpl. rewrite Hsync. ring.
Qed.

Lemma adsr_noteOff_release_witness :
  let e := ADSR.step ADSR.Process
             (ADSR.noteOn (ADSR.setADSR (1 # 100) (1 # 10) (7 # 10) (3 # 10)
                                        ADSR.init)) in
  ADSR.stage_ e <> ADSR.IDLE
  /\ ADSR.stage_ (ADSR.noteOff e) = ADSR.RELEASE
  /\ ADSR.increment_ (ADSR.noteOff e) == - ((7 # 10) / ((3 # 10) * 22050)).
Proof.
  intro e.
  assert (Hactive : ADSR.stage_ e <> ADSR.IDLE) by (vm_compute; discriminate).
  assert (Hsync : ADSR.synced e) by (vm_compute; reflexivity).
  assert (Hsus : 0 < ADSR.sustain_level_ e) by (vm_compute; reflexivity).
  assert (Hrel : 0 < ADSR.release_time_ e) by (vm_compute; reflexivity).
  assert (Hrate : 0 < ADSR.sample_rate_ e) by (vm_compute; reflexivity).
  split; [exact Hactive|].
  pose proof (adsr_noteOff_release ADSR.init e eq_refl
                Hactive Hsync Hsus Hrel Hrate) as (_ & _ & A & B & _).
  split; [exact A|].
  rewrite B. vm_compute. reflexivity.
Defined.

(** C8: the release does not always reach Idle.  With sustain level 0 the
    release increment -sustain / (release_seconds * sample_rate) is 0.  A
    note released during its attack (here after one [process] call, at
    level 10/2205) enters Release with target 0 and increment 0; every
    [process] call then leaves the stage and the level where they are,
    and no number of calls brings the envelope to Idle -- against the
    stage's own description, "Release phase (falling to zero)", and the
    target that [noteOff] has just set. *)
Theorem adsr_release_stuck_at_zero_sustain :
  let e := ADSR.noteOff
             (ADSR.step ADSR.Process
                (ADSR.noteOn (ADSR.setADSR (1 # 100) (1 # 10) 0 (3 # 10)
                                           ADSR.init))) in
  ADSR.stage_ e = ADSR.RELEASE
  /\ ADSR.target_ e == 0
  /\ ADSR.increment_ e
     == - (ADSR.sustain_level_ e
           / (ADSR.release_time_ e * ADSR.sample_rate_ e))
  /\ ADSR.increment_ e == 0
  /\ ADSR.level_ e == 10 # 2205
  /\ (forall n : nat,
        ADSR.stage_ (iterate n (ADSR.step ADSR.Process) e) = ADSR.RELEASE
        /\ ADSR.level_ (iterate n (ADSR.step ADSR.Process) e) == 10 # 2205)
  /\ ~ (exists n : nat,
          ADSR.stage_ (iterate n (ADSR.step ADSR.Process) e) = ADSR.IDLE).
Proof.
  intro e.
  assert (Hst : ADSR.stage_ e = ADSR.RELEASE) by reflexivity.
  assert (Hinc : ADSR.increment_ e == 0) by (vm_compute; reflexivity).
  assert (Hl : ADSR.level_ e == 10 # 2205) by (vm_compute; reflexivity).
  assert (Hpos : 0 < ADSR.level_ e) by (rewrite Hl; reflexivity).
  split; [exact Hst|]. split; [vm_compute; reflexivity|].
  split; [vm_compute; reflexivity|]. split; [exact Hinc|].
  split; [exact Hl|]. split.
  - intro n. destruct (adsr_release_held n e Hst Hinc Hpos) as [A B].
    split; [exact A|]. rewrite B. exact Hl.
  - intros [n Hn].
    destruct (adsr_release_held n e Hst Hinc Hpos) as [A _].
    rewrite A in Hn. discriminate.
Qed.

(** A fresh envelope has never run [updateIncrements]: its cached release
    increment is 0, not the one of its default parameters. *)
Lemma adsr_init_not_synced : ~ ADSR.synced ADSR.init.
Proof. unfold ADSR.synced. vm_compute. discriminate. Qed.

(** ** Binary32 rounding *)

(** Rounding to the nearest integer moves a number by at most one half. *)
Lemma round_half_even_error (t : Q) :
  Qabs (inject_Z (round_half_even t) - t) <= 1 # 2.
Proof.
  unfold round_half_even.
  pose proof (Qfloor_le t) as F1. pose proof (Qlt_floor t) as F2.
  rewrite inject_Z_plus in F2. change (inject_Z 1) with 1 in F2.
  set (f := Qfloor t) in *.
  apply Qabs_Qle_condition.
  destruct (Qltb (t - inject_Z f) (1 # 2)) eqn:E1.
  { apply Qltb_true in E1. split; lra. }
  apply Qltb_false in E1.
  destruct (Qltb (1 # 2) (t - inject_Z f)) eqn:E2.
  { apply Qltb_true in E2. rewrite inject_Z_plus.
    change (inject_Z 1) with 1. split; lra. }
  apply Qltb_false in E2.
  destruct (Z.even f).
  - split; lra.
  - rewrite inject_Z_plus. change (inject_Z 1) with 1. split; lra.
Qed.

Lemma two_neq0 : ~ 2 == 0.
Proof. discriminate. Qed.

Lemma Qpow2_pos (k : Z) : 0 < 2 ^ k.
Proof. apply Qpower_0_lt. reflexivity. Qed.

Lemma Qpow2_inject (a : Z) : (0 <= a)%Z -> inject_Z (2 ^ a) == 2 ^ a.
Proof. intro H. apply (Zpower_Qpower 2 a H). Qed.

(** [Qilog2 q] is the binary exponent of a positive [q]. *)
Lemma Qilog2_spec (q : Q) :
  0 < q -> 2 ^ Qilog2 q <= q < 2 ^ (Qilog2 q + 1).
Proof.
  intro Hq. unfold Qilog2.
  destruct q as [n d]. cbn [Qnum Qden].
  assert (Hn : (0 < n)%Z).
  { unfold Qlt in Hq. simpl in Hq. lia. }
  destruct (Z.log2_spec n Hn) as [A1 A2].
  destruct (Z.log2_spec (Zpos d) eq_refl) as [B1 B2].
  pose proof (Z.log2_nonneg n) as A0.
  pose proof (Z.log2_nonneg (Zpos d)) as B0.
  set (a := Z.log2 n) in *. set (b := Z.log2 (Zpos d)) in *.
  assert (En : n # d == inject_Z n / inject_Z (Zpos d)) by apply Qmake_Qdiv.
  assert (Hd : 0 < inject_Z (Zpos d)) by reflexivity.
  apply inject_Z_le in A1. apply inject_Z_lt in A2.
  apply inject_Z_le in B1. apply inject_Z_lt in B2.
  rewrite Qpow2_inject in A1, A2, B1, B2 by lia.
  replace (Z.succ a) with (a + 1)%Z in A2 by lia.
  replace (Z.succ b) with (b + 1)%Z in B2 by lia.
  destruct (Qle_bool (2 ^ (a - b)) (n # d)) eqn:E.
  - apply Qle_bool_iff in E. split; [exact E|].
    rewrite En. apply Qlt_shift_div_r; [exact Hd|].
    apply Qlt_le_trans with (2 ^ (a + 1)); [exact A2|].
    replace (a + 1)%Z with ((a - b + 1) + b)%Z at 1 by lia.
    rewrite Qpower_plus by exact two_neq0.
    apply Qmult_le_l; [apply Qpow2_pos | exact B1].
  - assert (E' : n # d < 2 ^ (a - b)).
    { apply Qnot_le_lt. intro H. apply Qle_bool_iff in H. congruence. }
    replace (a - b - 1 + 1)%Z with (a - b)%Z by lia.
    split; [|exact E'].
    rewrite En. apply Qle_shift_div_l; [exact Hd|].
    apply Qle_trans with (2 ^ a); [|exact A1].
    replace a with ((a - b - 1) + (b + 1))%Z at 2 by lia.
    rewrite Qpower_plus by exact two_neq0.
    apply Qmult_le_l; [apply Qpow2_pos | apply Qlt_le_weak, B2].
Qed.

(** The standard error model of binary32 arithmetic: rounding moves a
    number by at most 2^-24 of its size, or by 2^-150 in the subnormal
    range. *)
Lemma round32_error (q : Q) :
  Qabs (round32 q - q) <= unit_roundoff32 * Qabs q + eta32.
Proof.
  unfold round32.
  pose proof (Qabs_nonneg q) as Hq0.
  assert (Heta : 0 < eta32) by apply Qpow2_pos.
  assert (U0 : 0 <= unit_roundoff32 * Qabs q).
  { apply Qmult_le_0_compat; [discriminate | exact Hq0]. }
  destruct (Qeq_bool q 0) eqn:E.
  - apply Qeq_bool_iff in E.
    assert (E0 : 0 - q == 0) by (rewrite E; ring).
    rewrite E0. change (Qabs 0) with 0. lra.
  - apply Qeq_bool_neq in E.
    assert (Hq : 0 < Qabs q).
    { destruct (Qlt_le_dec 0 (Qabs q)) as [H|H]; [exact H|].
      exfalso. apply E. apply Qabs_Qle_condition in H.
      apply Qle_antisym; lra. }
    cbv zeta.
    set (k := Qilog2 (Qabs q)).
    destruct (Qilog2_spec (Qabs q) Hq) as [K1 _]. fold k in K1.
    set (e := Z.max (k - 23) (-149)).
    pose proof (Qpow2_pos e) as Pe.
    set (t := q / 2 ^ e).
    pose proof (round_half_even_error t) as R.
    set (m := inject_Z (round_half_even t)) in *.
    assert (Eq : m * 2 ^ e - q == (m - t) * 2 ^ e).
    { unfold t. field. apply Qpower_not_0. exact two_neq0. }
    rewrite Eq, Qabs_Qmult, (Qabs_pos (2 ^ e)) by lra.
    assert (Hhalf : Qabs (m - t) * 2 ^ e <= (1 # 2) * 2 ^ e).
    { apply Qmult_le_compat_r; [exact R | lra]. }
    apply Qle_trans with ((1 # 2) * 2 ^ e); [exact Hhalf|].
    destruct (Z.max_spec (k - 23) (-149)) as [[_ M]|[_ M]]; fold e in M;
      rewrite M.
    + assert (Ee : (1 # 2) * 2 ^ (-149) == eta32) by reflexivity.
      rewrite Ee. lra.
    + replace (k - 23)%Z with (k + (-23))%Z by lia.
      rewrite Qpower_plus by exact two_neq0.
      assert (Ek : (1 # 2) * (2 ^ k * 2 ^ (-23)) == unit_roundoff32 * 2 ^ k).
      { assert (Ec : (1 # 2) * 2 ^ (-23) == unit_roundoff32) by reflexivity.
        rewrite <- Ec. ring. }
      rewrite Ek.
      assert (unit_roundoff32 * 2 ^ k <= unit_roundoff32 * Qabs q).
      { apply Qmult_le_l; [reflexivity | exact K1]. }
      lra.
Qed.

Lemma Qabs_bounds (x : Q) : - Qabs x <= x <= Qabs x.
Proof. apply Qabs_Qle_condition. apply Qle_refl. Qed.

(** Values of [round32] known from the C++ literals: 0.1f, 0.7f and 1e-9f;
    a tie goes to the even significand; a term below half a unit in the
    last place is absorbed. *)
Example round32_values :
  round32 (1 # 10) == 13421773 # 134217728
  /\ round32 (7 # 10) == 11744051 # 16777216
  /\ round32 (1 # 1000000000) == 9007199 # 9007199254740992
  /\ round32 16777217 == 16777216
  /\ round32 16777219 == 16777220
  /\ round32 ((3 # 4) + (1 # 4294967296)) == 3 # 4
  /\ round32 (1 # 2) == 1 # 2.
Proof. vm_compute. repeat split; reflexivity. Qed.

(** ** One-pole filter *)

(** [processHPF] is the rounded difference of the input and the low-pass
    output of the same call, and leaves the state of that call. *)
Lemma onepole_processHPF_eq (input : Q) (f : OnePole.t) :
  OnePole.processHPF input f
  = (round32 (input - fst (OnePole.processLPF input f)),
     snd (OnePole.processLPF input f)).
Proof. reflexivity. Qed.

(** C7, as the code has it: on the same input and the same filter state
    (whatever cutoff was installed in it) [processHPF] leaves the state
    that [processLPF] leaves and returns the float nearest to
    [input - lpf_out].  The two outputs therefore add up to the input up
    to the rounding of that one subtraction: the defect of the sum is the
    rounding error of [input - lpf_out], at most 2^-24 of its size (plus
    2^-150 in the subnormal range), and the sum is the input itself
    exactly when [input - lpf_out] is a float.  Added in float arithmetic
    the two outputs are within 2^-24 * (|input| + 2 |input - lpf_out|)
    + 3 * 2^-150 of the input. *)
Theorem onepole_lpf_hpf_sum_within_rounding (input : Q) (f : OnePole.t) :
  let lp := fst (OnePole.processLPF input f) in
  let hp := fst (OnePole.processHPF input f) in
  snd (OnePole.processHPF input f) = snd (OnePole.processLPF input f)
  /\ hp = round32 (input - lp)
  /\ lp + hp - input == round32 (input - lp) - (input - lp)
  /\ Qabs (lp + hp - input) <= unit_roundoff32 * Qabs (input - lp) + eta32
  /\ Qabs (round32 (lp + hp) - input)
     <= unit_roundoff32 * (Qabs input + 2 * Qabs (input - lp)) + 3 * eta32.
Proof.
  intros lp hp. unfold hp. rewrite onepole_processHPF_eq. cbn [fst snd].
  fold lp.
  pose proof (round32_error (input - lp)) as Hd.
  set (r := round32 (input - lp)) in *.
  assert (E : lp + r - input == r - (input - lp)) by ring.
  assert (Hsum : Qabs (lp + r - input)
                 <= unit_roundoff32 * Qabs (input - lp) + eta32).
  { rewrite E. exact Hd. }
  split; [reflexivity|]. split; [reflexivity|]. split; [exact E|].
  split; [exact Hsum|].
  pose proof (round32_error (lp + r)) as Hs.
  pose proof (Qabs_nonneg (input - lp)) as A0.
  pose proof (Qabs_bounds input) as Bi.
  assert (Heta : 0 < eta32) by apply Qpow2_pos.
  set (A := Qabs (input - lp)) in *.
  apply Qabs_Qle_condition in Hsum.
  assert (Habs : Qabs (lp + r)
                 <= Qabs input + (unit_roundoff32 * A + eta32)).
  { apply Qabs_Qle_condition. split; lra. }
  apply Qabs_Qle_condition in Hs.
  set (Sm := Qabs (lp + r)) in *. set (Im := Qabs input) in *.
  unfold unit_roundoff32 in *.
  apply Qabs_Qle_condition. split; lra.
Qed.

(** C7 fails as it is worded, with an exact sum.  A reset filter with the
    coefficients of the default cutoff (1000 Hz at 22050 Hz: a0 = 1 - E and
    b1 = E for E the float nearest to exp(-omega)) and the input 0.7f:
    the two outputs add up to the input less 2^-26.  The same filter with
    previous output 1 and the input 1e-9f: the input is absorbed in both
    outputs and they add up to 0. *)
Lemma onepole_lpf_hpf_sum_not_exact :
  let a0 := 4159901 # 16777216 in
  let b1 := 12617315 # 16777216 in
  let f := OnePole.mk 0 a0 b1 SAMPLE_RATE_F 1000 in
  let g := OnePole.mk 1 a0 b1 SAMPLE_RATE_F 1000 in
  let x := 11744051 # 16777216 in
  let y := 9007199 # 9007199254740992 in
  (fst (OnePole.processLPF x f) + fst (OnePole.processHPF x f)
     == x - (1 # 67108864)
   /\ ~ fst (OnePole.processLPF x f) + fst (OnePole.processHPF x f) == x)
  /\ (fst (OnePole.processLPF y g) + fst (OnePole.processHPF y g) == 0
      /\ ~ fst (OnePole.processLPF y g) + fst (OnePole.processHPF y g) == y).
Proof.
  vm_compute. repeat split; try reflexivity; discriminate.
Qed.

(** ** Parameter setters *)

(** The setters that clamp: amplitude to [0,1], one-pole cutoff to
    [1, 0.49 * rate], state-variable cutoff to [1, 0.45 * rate] and
    resonance to [0.1, 10], sustain to [0,1], envelope times to at least
    1 ms. *)
Lemma clamping_setters (expf sinf : Q -> Q) (x y z u : Q) :
  (forall o, 0 <= WavetableOscillator.getAmplitude
                    (WavetableOscillator.setAmplitude x o) <= 1)
  /\ (forall g, 0 <= NoiseGenerator.getAmplitude
                       (NoiseGenerator.setAmplitude x g) <= 1)
  /\ (forall f, 1 <= OnePole.sample_rate_ f * (49 # 100) ->
        1 <= OnePole.getCutoff (OnePole.setCutoff expf x f)
          <= OnePole.sample_rate_ f * (49 # 100))
  /\ (forall s, 1 <= StateVariable.sample_rate_ s * (45 # 100) ->
        1 <= StateVariable.getCutoff (StateVariable.setParams sinf x y s)
          <= StateVariable.sample_rate_ s * (45 # 100))
  /\ (forall s, (1 # 10) <= StateVariable.getResonance
                              (StateVariable.setParams sinf x y s) <= 10)
  /\ (forall e, let e' := ADSR.setADSR x y z u e in
        (1 # 1000) <= ADSR.attack_time_ e'
        /\ (1 # 1000) <= ADSR.decay_time_ e'
        /\ 0 <= ADSR.sustain_level_ e' <= 1
        /\ (1 # 1000) <= ADSR.release_time_ e')
  /\ (forall e, let e' := AR.setAR x y e in
        (1 # 1000) <= AR.attack_time_ e' /\ (1 # 1000) <= AR.release_time_ e').
Proof.
  repeat split; intros; simpl;
    try apply std_clamp_01;
    try (apply std_clamp_range; first [assumption | lra]);
    try apply std_max_lower.
Qed.

(** The oscillator frequency is stored as it comes: reading it back
    returns the argument. *)
Lemma oscillator_frequency_roundtrip (frequency : Q) (o : WavetableOscillator.t) :
  ~ PhaseAccumulator.sample_rate_ (WavetableOscillator.phase_ o) == 0 ->
  WavetableOscillator.getFrequency
    (WavetableOscillator.setFrequency frequency o) == frequency.
Proof.
  intro H. unfold WavetableOscillator.getFrequency,
    WavetableOscillator.setFrequency, PhaseAccumulator.getCurrentFrequency,
    PhaseAccumulator.setFrequency. simpl. field. exact H.
Qed.

(** C1 at [osc.setFrequency(-100.0f)], the call the API guide gives as
    "clamped to minimum safe value": the oscillator stores the increment
    -100 / 22050, its frequency reads back as -100, and the next sample is
    taken at a negative phase. *)
Theorem oscillator_setFrequency_not_clamped (w : Wavetable.t) :
  let o := WavetableOscillator.setFrequency (-100)
             (WavetableOscillator.make w) in
  PhaseAccumulator.increment_ (WavetableOscillator.phase_ o)
  == - (100 / SAMPLE_RATE_F)
  /\ WavetableOscillator.getFrequency o == -100
  /\ PhaseAccumulator.increment_ (WavetableOscillator.phase_ o) < 0
  /\ fst (PhaseAccumulator.tick (WavetableOscillator.phase_ o)) < 0.
Proof.
  cbv zeta. repeat split; vm_compute; reflexivity.
Qed.

(** ** Phase accumulator *)

Lemma tick_wraps (p : PhaseAccumulator.t) :
  0 <= PhaseAccumulator.increment_ p < 1 ->
  PhaseAccumulator.wrapped p ->
  0 <= fst (PhaseAccumulator.tick p) < 1
  /\ PhaseAccumulator.getPhase (snd (PhaseAccumulator.tick p))
     = fst (PhaseAccumulator.tick p)
  /\ PhaseAccumulator.increment_ (snd (PhaseAccumulator.tick p))
     = PhaseAccumulator.increment_ p
  /\ (fst (PhaseAccumulator.tick p)
      == PhaseAccumulator.phase_ p + PhaseAccumulator.increment_ p
      \/ fst (PhaseAccumulator.tick p)
         == PhaseAccumulator.phase_ p + PhaseAccumulator.increment_ p - 1).
Proof.
  unfold PhaseAccumulator.wrapped, PhaseAccumulator.tick. intros Hi Hp.
  qcase; simpl; repeat split; lra.
Qed.

Lemma setPhase_wrapped (x : Q) (p : PhaseAccumulator.t) :
  PhaseAccumulator.wrapped (PhaseAccumulator.setPhase x p).
Proof.
  unfold PhaseAccumulator.wrapped, PhaseAccumulator.setPhase. simpl.
  apply wrap_range. reflexivity.
Qed.

(** When the increment is in [0,1), that is for 0 <= frequency <
    sample_rate, every call keeps the phase in [0,1). *)
Lemma phase_run_wrapped (cs : list PhaseAccumulator.call)
    (p : PhaseAccumulator.t) :
  0 <= PhaseAccumulator.increment_ p < 1 ->
  PhaseAccumulator.wrapped p ->
  PhaseAccumulator.wrapped (PhaseAccumulator.run cs p)
  /\ PhaseAccumulator.increment_ (PhaseAccumulator.run cs p)
     = PhaseAccumulator.increment_ p.
Proof.
  unfold PhaseAccumulator.run. revert p.
  induction cs as [|c cs IH]; intros p Hi Hp; simpl; [split; auto|].
  assert (H : PhaseAccumulator.wrapped (PhaseAccumulator.step c p)
              /\ PhaseAccumulator.increment_ (PhaseAccumulator.step c p)
                 = PhaseAccumulator.increment_ p).
  { destruct c; cbn [PhaseAccumulator.step].
    - destruct (tick_wraps p Hi Hp) as (A & B & C & _).
      unfold PhaseAccumulator.getPhase in B.
      unfold PhaseAccumulator.wrapped. rewrite B. auto.
    - split; [apply setPhase_wrapped | reflexivity].
    - split; [|reflexivity].
      unfold PhaseAccumulator.wrapped. simpl. lra. }
  destruct H as [Hw He]. rewrite <- He in Hi.
  destruct (IH _ Hi Hw) as [A B]. split; [exact A|].
  rewrite B. exact He.
Qed.

(** C3 at the frequencies the accumulator does not guard against.  After
    [setFrequency(-100)] and [reset], [tick] returns -100/22050, below 0.
    After [setFrequency(33075)] (one and a half times the sample rate) the
    second [tick] returns 1 and the third 3/2: one subtraction of 1 does not
    bring the sum back under 1. *)
Theorem tick_leaves_unit_interval :
  let neg := PhaseAccumulator.reset
               (PhaseAccumulator.setFrequency (-100) PhaseAccumulator.init) in
  let high := PhaseAccumulator.reset
                (PhaseAccumulator.setFrequency 33075 PhaseAccumulator.init) in
  fst (PhaseAccumulator.tick neg) == - (100 / SAMPLE_RATE_F)
  /\ fst (PhaseAccumulator.tick neg) < 0
  /\ PhaseAccumulator.getPhase (snd (PhaseAccumulator.tick neg)) < 0
  /\ fst (PhaseAccumulator.tick
            (PhaseAccumulator.run [PhaseAccumulator.Tick] high)) == 1
  /\ fst (PhaseAccumulator.tick
            (PhaseAccumulator.run
               [PhaseAccumulator.Tick; PhaseAccumulator.Tick] high)) == 3 # 2.
Proof.
  cbv zeta. repeat split; vm_compute; reflexivity.
Qed.

(** ** The sine table and the first oscillator sample *)

Section SineBounds.
Local Open Scope R_scope.

(** Below 1 the sine lies between [x - x^3/6] and [x]. *)
Lemma sin_cubic_bounds (x : R) :
  0 < x <= 1 -> x - x * x * x / 6 <= sin x < x.
Proof.
  intros [H0 H1]. split; [|apply sin_lt_x, H0].
  assert (Hpi : x <= PI).
  { pose proof PI2_3_2. Lra.lra. }
  destruct (SIN x (Rlt_le _ _ H0) Hpi) as [Hlb _].
  unfold sin_lb, sin_approx, sum_f_R0, sin_term in Hlb.
  assert (F1 : INR (fact (2 * 0 + 1)) = 1)
    by (rewrite INR_IZR_INZ; reflexivity).
  assert (F3 : INR (fact (2 * 1 + 1)) = 6)
    by (rewrite INR_IZR_INZ; reflexivity).
  assert (F5 : INR (fact (2 * 2 + 1)) = 120)
    by (rewrite INR_IZR_INZ; reflexivity).
  assert (F7 : INR (fact (2 * 3 + 1)) = 5040)
    by (rewrite INR_IZR_INZ; reflexivity).
  rewrite F1, F3, F5, F7 in Hlb. simpl in Hlb.
  assert (Hx2 : 0 <= x * x <= 1) by Lra.nra.
  assert (Hx5 : 0 <= x * (x * (x * (x * x)))).
  { repeat apply Rmult_le_pos; Lra.lra. }
  assert (Htail : 0 <= x * (x * (x * (x * x))) * (1 / 120 - x * x / 5040)).
  { apply Rmult_le_pos; [exact Hx5 | Lra.lra]. }
  Lra.lra.
Qed.

Lemma Int_part_bounds (r : R) (lo hi : Z) :
  IZR lo <= r < IZR hi + 1 -> (lo <= Int_part r <= hi)%Z.
Proof.
  intros [Hlo Hhi]. destruct (base_Int_part r) as [A B].
  assert (C1 : IZR (lo - 1) < IZR (Int_part r)).
  { rewrite minus_IZR. Lra.lra. }
  assert (C2 : IZR (Int_part r) < IZR (hi + 1)).
  { rewrite plus_IZR. Lra.lra. }
  apply lt_IZR in C1, C2. lia.
Qed.

Lemma Q2R_inject_Z (z : Z) : Q2R (inject_Z z) = IZR z.
Proof. unfold Q2R. simpl. Lra.lra. Qed.

(** Quantising a value of [0,1] known between two bounds. *)
Lemma quantizeR_bounds (v : R) (lo hi : Z) :
  0 <= v <= 1 -> IZR lo <= v * 32767 < IZR hi + 1 ->
  (lo <= quantizeR v <= hi)%Z.
Proof.
  intros Hv Hb. unfold quantizeR, std_clampR.
  destruct (Rlt_dec v (-1)) as [C|C]; [Lra.lra|].
  destruct (Rlt_dec 1 v) as [D|D]; [Lra.lra|].
  unfold Rtrunc. destruct (Rle_dec 0 (v * 32767)) as [E|E]; [|Lra.lra].
  apply Int_part_bounds, Hb.
Qed.

(** The same for the sine of a rational angle [q] in (0,1], with the
    bounds checked on rationals. *)
Lemma quantized_sine_bounds (q : Q) (lo hi : Z) :
  (0 < q)%Q -> (q <= 1)%Q ->
  (inject_Z lo <= (q - q * q * q * (1 # 6)) * 32767)%Q ->
  (q * 32767 <= inject_Z hi + 1)%Q ->
  (lo <= quantizeR (sin (Q2R q)) <= hi)%Z.
Proof.
  intros H0 H1 Hlo Hhi.
  apply Qlt_Rlt in H0. apply Qle_Rle in H1, Hlo, Hhi.
  rewrite Q2R_mult, Q2R_minus, !Q2R_mult in Hlo.
  rewrite Q2R_mult, Q2R_plus in Hhi.
  rewrite !Q2R_inject_Z in Hlo, Hhi.
  replace (Q2R 0) with 0 in H0 by (unfold Q2R; simpl; Lra.lra).
  replace (Q2R 1) with 1 in H1, Hhi by (unfold Q2R; simpl; Lra.lra).
  replace (Q2R (1 # 6)) with (1 / 6) in Hlo by (unfold Q2R; simpl; Lra.lra).
  replace (Q2R 32767) with 32767 in Hlo, Hhi
    by (unfold Q2R; simpl; Lra.lra).
  set (a := Q2R q) in *.
  destruct (sin_cubic_bounds a) as [A B]; [Lra.lra|].
  assert (Hcube : a * a * a <= a) by Lra.nra.
  apply quantizeR_bounds; Lra.lra.
Qed.

End SineBounds.

Lemma makeWavetableR_SIZE (n : nat) (g : nat -> R) :
  Wavetable.SIZE (makeWavetableR n g) = n.
Proof.
  unfold Wavetable.SIZE, makeWavetableR. simpl.
  rewrite length_map, length_seq. reflexivity.
Qed.

Lemma makeWavetableR_nth (n : nat) (g : nat -> R) (i : nat) :
  (i < n)%nat ->
  nth i (Wavetable.samples_ (makeWavetableR n g)) 0%Z = quantizeR (g i).
Proof.
  intro H. unfold makeWavetableR. simpl.
  rewrite (nth_indep _ 0%Z (quantizeR (g 0%nat)))
    by (rewrite length_map, length_seq; exact H).
  rewrite (map_nth (fun i => quantizeR (g i))), seq_nth by exact H.
  reflexivity.
Qed.

Lemma sine_table_SIZE : Wavetable.SIZE Basic.SINE = 1024%nat.
Proof. apply makeWavetableR_SIZE. Qed.

(** Entries 0, 20 and 21 of the sine table. *)
Lemma sine_table_entries :
  nth 0 (Wavetable.samples_ Basic.SINE) 0%Z = 0%Z
  /\ (4011 <= nth 20 (Wavetable.samples_ Basic.SINE) 0 <= 4021)%Z
  /\ (4210 <= nth 21 (Wavetable.samples_ Basic.SINE) 0 <= 4222)%Z.
Proof.
  unfold Basic.SINE, Basic.makeSineTable.
  rewrite !makeWavetableR_nth
    by (unfold Basic.BASIC_TABLE_SIZE, WAVETABLE_SIZE; lia).
  cbv zeta. split; [|split].
  - assert (E : Q2R (2 * M_PI * Basic.of_index 0
                     / Basic.of_index Basic.BASIC_TABLE_SIZE) = 0%R).
    { rewrite <- (Q2R_inject_Z 0). apply Qeq_eqR. reflexivity. }
    rewrite E, sin_0.
    assert (H : (0 <= quantizeR 0 <= 0)%Z); [|lia].
    apply quantizeR_bounds; simpl; Lra.lra.
  - apply quantized_sine_bounds; vm_compute; first [reflexivity | discriminate].
  - apply quantized_sine_bounds; vm_compute; first [reflexivity | discriminate].
Qed.

(** The oscillator of the scenario: frequency 440 at the default sample
    rate 22050, amplitude 1, phase reset.  Its first [process] call ticks
    the accumulator to phase 440/22050 before the lookup, so it reads the
    table at index 1024 * 440 / 22050 = 20 + 956/2205, between entries 20
    and 21. *)
Lemma first_process_reads_index_20 (w : Wavetable.t) :
  Wavetable.SIZE w = 1024%nat ->
  fst (WavetableOscillator.process
         (WavetableOscillator.reset
            (WavetableOscillator.setAmplitude 1
               (WavetableOscillator.setFrequency 440
                  (WavetableOscillator.make w)))))
  == (inject_Z (nth 20 (Wavetable.samples_ w) 0%Z)
      + (956 # 2205) * (inject_Z (nth 21 (Wavetable.samples_ w) 0%Z)
                        - inject_Z (nth 20 (Wavetable.samples_ w) 0%Z)))
     / SAMPLE_SCALE.
Proof.
  intro Hsize.
  unfold WavetableOscillator.process, WavetableOscillator.reset,
    WavetableOscillator.setAmplitude, WavetableOscillator.setFrequency,
    WavetableOscillator.make.
  cbn [WavetableOscillator.phase_ WavetableOscillator.wavetable_
       WavetableOscillator.amplitude_].
  set (t := PhaseAccumulator.tick _).
  assert (Ht : fst t = 0 + 440 / SAMPLE_RATE_F) by reflexivity.
  destruct t as [phase pa]. cbn [fst] in *. subst phase.
  rewrite Hsize.
  set (idx := (0 + 440 / SAMPLE_RATE_F) * inject_Z (Z.of_nat 1024)).
  assert (Hfl : Qfloor idx = 20%Z) by reflexivity.
  rewrite getInterpolated_inside
    by (rewrite Hsize; split; vm_compute; first [reflexivity | discriminate]).
  cbv zeta. rewrite Hfl, Hsize.
  change ((Z.to_nat 20 + 1) mod 1024)%nat with 21%nat.
  change (Z.to_nat 20) with 20%nat.
  assert (Hfrac : idx - inject_Z (Z.of_nat 20) == 956 # 2205) by reflexivity.
  rewrite Hfrac.
  assert (Hamp : std_clamp 1 0 1 == 1) by reflexivity.
  rewrite Hamp. unfold SAMPLE_SCALE. field.
Qed.

Lemma first_sample_bounds :
  let out := fst (WavetableOscillator.process
                    (WavetableOscillator.reset
                       (WavetableOscillator.setAmplitude 1
                          (WavetableOscillator.setFrequency 440
                             (WavetableOscillator.make Basic.SINE))))) in
  (1 # 8) < out < (1254 # 10000).
Proof.
  intro out. unfold out.
  rewrite (first_process_reads_index_20 Basic.SINE sine_table_SIZE).
  destruct sine_table_entries as (_ & [A1 A2] & [B1 B2]).
  apply inject_Z_le in A1, A2, B1, B2.
  set (a := inject_Z (nth 20 (Wavetable.samples_ Basic.SINE) 0%Z)) in *.
  set (b := inject_Z (nth 21 (Wavetable.samples_ Basic.SINE) 0%Z)) in *.
  change (inject_Z 4011) with 4011 in A1.
  change (inject_Z 4021) with 4021 in A2.
  change (inject_Z 4210) with 4210 in B1.
  change (inject_Z 4222) with 4222 in B2.
  unfold Qdiv. change (/ SAMPLE_SCALE) with (1 # 32767).
  split; lra.
Qed.

(** C2, as the code has it: with the 1024-entry sine table, frequency 440,
    sample rate 22050, amplitude 1 and the phase reset to 0, the first
    [process] call first advances the phase to 440/22050 and then reads the
    table there, at index 20 + 956/2205.  It returns the interpolation
    between entries 20 and 21, a value between 0.125 and 0.1254; the value
    0 is what the table holds at phase 0, which this call does not read. *)
Theorem first_sample_of_sine_at_440 :
  let osc := WavetableOscillator.reset
               (WavetableOscillator.setAmplitude 1
                  (WavetableOscillator.setFrequency 440
                     (WavetableOscillator.make Basic.SINE))) in
  let out := fst (WavetableOscillator.process osc) in
  let s20 := inject_Z (nth 20 (Wavetable.samples_ Basic.SINE) 0%Z) in
  let s21 := inject_Z (nth 21 (Wavetable.samples_ Basic.SINE) 0%Z) in
  PhaseAccumulator.getPhase (WavetableOscillator.phase_ osc) == 0
  /\ fst (PhaseAccumulator.tick (WavetableOscillator.phase_ osc))
     == 440 / SAMPLE_RATE_F
  /\ out == (s20 + (956 # 2205) * (s21 - s20)) / SAMPLE_SCALE
  /\ (1 # 8) < out < (1254 # 10000)
  /\ Wavetable.getInterpolated Basic.SINE 0 == 0.
Proof.
  cbv zeta. split; [reflexivity|]. split; [reflexivity|].
  split; [apply first_process_reads_index_20, sine_table_SIZE|].
  split; [apply first_sample_bounds|].
  assert (Hpos : (0 < Wavetable.SIZE Basic.SINE)%nat)
    by (rewrite sine_table_SIZE; lia).
  rewrite (getInterpolated_integer Basic.SINE 0 Hpos).
  unfold Wavetable.getSample. rewrite sine_table_SIZE.
  change (0 mod 1024)%nat with 0%nat.
  rewrite (proj1 sine_table_entries). reflexivity.
Qed.

(** C2 fails as it is worded: the first sample is more than 1/32767 away
    from 0. *)
Lemma first_sample_of_sine_not_zero :
  ~ Qabs (fst (WavetableOscillator.process
                 (WavetableOscillator.reset
                    (WavetableOscillator.setAmplitude 1
                       (WavetableOscillator.setFrequency 440
                          (WavetableOscillator.make Basic.SINE)))))
          - 0)
    <= 1 # 32767.
Proof.
  pose proof first_sample_bounds as [H _]. cbv zeta in H.
  set (out := fst _) in *. intro Habs.
  pose proof (Qle_Qabs (out - 0)) as Hle. lra.
Qed.


(** * Further properties of the library *)

(** ** Quantisation and table construction *)

Lemma Qtrunc_nonpos (x : Q) : x <= 0 -> Qtrunc x = (- Qfloor (- x))%Z.
Proof.
  destruct x as [n d]. unfold Qle, Qtrunc, Qfloor. simpl. intro H.
  assert (Hn : (n <= 0)%Z) by lia.
  replace n with (- - n)%Z at 1 by lia.
  rewrite Z.quot_opp_l by lia.
  rewrite Z.quot_div_nonneg by lia. reflexivity.
Qed.

Lemma Qtrunc_bounds (x : Q) (b : Z) :
  - inject_Z b <= x <= inject_Z b -> (- b <= Qtrunc x <= b)%Z.
Proof.
  intros [Hlo Hhi].
  assert (Hb : 0 <= inject_Z b) by lra.
  apply (inject_Z_le_inv 0) in Hb.
  destruct (Qlt_le_dec x 0) as [Hn|Hp].
  - rewrite Qtrunc_nonpos by lra.
    assert (H1 : (0 <= Qfloor (- x))%Z) by (apply (Qfloor_resp_le 0); lra).
    assert (H2 : (Qfloor (- x) <= b)%Z).
    { rewrite <- (Qfloor_Z b). apply Qfloor_resp_le. lra. }
    lia.
  - rewrite Qtrunc_nonneg by exact Hp.
    assert (H1 : (0 <= Qfloor x)%Z) by (apply (Qfloor_resp_le 0); lra).
    assert (H2 : (Qfloor x <= b)%Z).
    { rewrite <- (Qfloor_Z b). apply Qfloor_resp_le. lra. }
    lia.
Qed.

Lemma Qtrunc_monotone (x y : Q) : x <= y -> (Qtrunc x <= Qtrunc y)%Z.
Proof.
  intro H.
  destruct (Qlt_le_dec x 0) as [Hx|Hx]; destruct (Qlt_le_dec y 0) as [Hy|Hy].
  - rewrite !Qtrunc_nonpos by lra.
    assert (Qfloor (- y) <= Qfloor (- x))%Z by (apply Qfloor_resp_le; lra).
    lia.
  - rewrite Qtrunc_nonpos by lra. rewrite (Qtrunc_nonneg y Hy).
    assert (0 <= Qfloor (- x))%Z by (apply (Qfloor_resp_le 0); lra).
    assert (0 <= Qfloor y)%Z by (apply (Qfloor_resp_le 0); lra).
    lia.
  - lra.
  - rewrite !Qtrunc_nonneg by lra. apply Qfloor_resp_le, H.
Qed.

Lemma quantize_range (v : Q) : (-32767 <= quantize v <= 32767)%Z.
Proof.
  unfold quantize, SAMPLE_SCALE.
  pose proof (std_clamp_unit v) as Hc.
  apply (Qtrunc_bounds _ 32767). change (inject_Z 32767) with 32767. lra.
Qed.

Lemma std_clamp_monotone (v v' lo hi : Q) :
  lo <= hi -> v <= v' -> std_clamp v lo hi <= std_clamp v' lo hi.
Proof. intros Hb H. unfold std_clamp. qcase; lra. Qed.

Lemma quantize_monotone (v v' : Q) : v <= v' -> (quantize v <= quantize v')%Z.
Proof.
  intro H. unfold quantize, SAMPLE_SCALE. apply Qtrunc_monotone.
  assert (Hb : -1 <= 1) by lra.
  pose proof (std_clamp_monotone v v' (-1) 1 Hb H). lra.
Qed.

Lemma makeWavetable_nth (n : nat) (g : nat -> Q) (i : nat) :
  (i < n)%nat ->
  nth i (Wavetable.samples_ (makeWavetable n g)) 0%Z = quantize (g i).
Proof.
  intro H. unfold makeWavetable. simpl.
  rewrite (nth_indep _ 0%Z (quantize (g 0%nat)))
    by (rewrite length_map, length_seq; exact H).
  rewrite (map_nth (fun i => quantize (g i))), seq_nth by exact H.
  reflexivity.
Qed.

Lemma makeWavetable_getSample (n : nat) (g : nat -> Q) (i : nat) :
  (0 < n)%nat ->
  Wavetable.getSample (makeWavetable n g) i = quantize (g (i mod n)%nat).
Proof.
  intro H. unfold Wavetable.getSample. rewrite makeWavetable_SIZE.
  apply makeWavetable_nth. apply Nat.mod_upper_bound. lia.
Qed.

Lemma makeWavetable_in_range (n : nat) (g : nat -> Q) :
  Forall (fun s => (-32767 <= s <= 32767)%Z)
         (Wavetable.samples_ (makeWavetable n g)).
Proof.
  unfold makeWavetable. cbn [Wavetable.samples_].
  apply Forall_map, Forall_forall. intros i _. apply quantize_range.
Qed.


(** X2: the square table is +32767 on the first half of every period and
    -32767 on the second, and the pulse table is +32767 on the first
    quarter and -32767 on the rest, at every index. *)
Theorem square_and_pulse_duty (i : nat) :
  Wavetable.getSample Basic.SQUARE i
  = (if (i mod 1024 <? 512)%nat then 32767 else -32767)%Z
  /\ Wavetable.getSample Basic.PULSE i
     = (if (i mod 1024 <? 256)%nat then 32767 else -32767)%Z.
Proof.
  unfold Basic.SQUARE, Basic.makeSquareTable, Basic.PULSE,
    Basic.makePulseTable, Basic.BASIC_TABLE_SIZE, WAVETABLE_SIZE.
  rewrite !makeWavetable_getSample by lia.
  change (1024 / 2)%nat with 512%nat. change (1024 / 4)%nat with 256%nat.
  split.
  - destruct (i mod 1024 <? 512)%nat; reflexivity.
  - destruct (i mod 1024 <? 256)%nat; reflexivity.
Qed.

(** X3: quantisation is monotone, so the sawtooth table never falls
    inside a period: it starts at -32767, ends at 32767 and rises (weakly)
    in between. *)
Theorem saw_table_rises (i j : nat) (Hij : (i <= j)%nat) (Hj : (j < 1024)%nat) :
  (Wavetable.getSample Basic.SAW i <= Wavetable.getSample Basic.SAW j)%Z
  /\ Wavetable.getSample Basic.SAW 0 = (-32767)%Z
  /\ Wavetable.getSample Basic.SAW 1023 = 32767%Z.
Proof.
  unfold Basic.SAW, Basic.makeSawTable, Basic.BASIC_TABLE_SIZE,
    WAVETABLE_SIZE.
  rewrite !makeWavetable_getSample by lia.
  rewrite (Nat.mod_small i), (Nat.mod_small j) by lia.
  split; [|split; reflexivity].
  apply quantize_monotone.
  change (Basic.of_index (1024 - 1)) with 1023. unfold Basic.of_index.
  assert (H : inject_Z (Z.of_nat i) <= inject_Z (Z.of_nat j))
    by (apply inject_Z_le; lia).
  unfold Qdiv. change (/ 1023) with (1 # 1023). lra.
Qed.

Lemma saw_table_rises_witness :
  (3 <= 700)%nat /\ (700 < 1024)%nat
  /\ (Wavetable.getSample Basic.SAW 3 <= Wavetable.getSample Basic.SAW 700)%Z.
Proof.
  assert (H1 : (3 <= 700)%nat) by lia.
  assert (H2 : (700 < 1024)%nat) by lia.
  split; [exact H1|]. split; [exact H2|].
  exact (proj1 (saw_table_rises 3 700 H1 H2)).
Defined.


(** ** Interpolated lookup: range and period *)

Lemma nth_Forall_default {A : Type} (P : A -> Prop) (l : list A) (d : A)
    (i : nat) :
  Forall P l -> P d -> P (nth i l d).
Proof.
  intros Hl Hd. destruct (Nat.lt_ge_cases i (length l)) as [H|H].
  - rewrite Forall_forall in Hl. apply Hl, nth_In, H.
  - rewrite nth_overflow by exact H. exact Hd.
Qed.

Lemma getInterpolated_range (w : Wavetable.t) (x : Q) :
  (0 < Wavetable.SIZE w)%nat ->
  Forall (fun s => (-32767 <= s <= 32767)%Z) (Wavetable.samples_ w) ->
  -1 <= Wavetable.getInterpolated w x <= 1.
Proof.
  intros HN Hs. unfold Wavetable.getInterpolated. cbv zeta.
  set (m := inject_Z (Z.of_nat (Wavetable.SIZE w))).
  assert (Hm : 0 < m) by (apply (inject_Z_lt 0); lia).
  destruct (wrap_range m x Hm) as ([R0 R1] & _).
  set (r := while_neg_add m (while_ge_sub m x)) in *.
  rewrite (Qtrunc_nonneg r R0).
  assert (Hz : (0 <= Qfloor r)%Z) by (apply (Qfloor_resp_le 0), R0).
  rewrite Z2Nat.id by exact Hz.
  pose proof (Qfloor_le r) as F1. pose proof (Qlt_floor r) as F2.
  rewrite inject_Z_plus in F2. change (inject_Z 1) with 1 in F2.
  set (t := r - inject_Z (Qfloor r)).
  assert (Ht : 0 <= t < 1) by (unfold t; lra).
  assert (Hd : (fun s => (-32767 <= s <= 32767)%Z) 0%Z) by (simpl; lia).
  pose proof (nth_Forall_default _ _ 0%Z (Z.to_nat (Qfloor r)) Hs Hd) as [A1 A2].
  pose proof (nth_Forall_default _ _ 0%Z
                ((Z.to_nat (Qfloor r) + 1) mod Wavetable.SIZE w) Hs Hd)
    as [B1 B2].
  apply inject_Z_le in A1, A2, B1, B2.
  set (a := inject_Z (nth _ _ _)) in *.
  set (b := inject_Z (nth ((Z.to_nat (Qfloor r) + 1) mod Wavetable.SIZE w) _ _))
    in *.
  change (inject_Z (-32767)) with (-32767) in *.
  change (inject_Z 32767) with 32767 in *.
  unfold Qdiv, SAMPLE_SCALE. change (/ 32767) with (1 # 32767).
  assert (P1 : 0 <= (1 - t) * (a + 32767)) by (apply Qmult_le_0_compat; lra).
  assert (P2 : 0 <= t * (b + 32767)) by (apply Qmult_le_0_compat; lra).
  assert (P3 : 0 <= (1 - t) * (32767 - a)) by (apply Qmult_le_0_compat; lra).
  assert (P4 : 0 <= t * (32767 - b)) by (apply Qmult_le_0_compat; lra).
  split; lra.
Qed.

(** X4: linear interpolation never overshoots.  At an index inside the
    table, [0 <= x < SIZE], the interpolated lookup lies between the two
    stored samples on either side of [x] (each scaled back by 32767), the
    entry after the last one being entry 0; for a table of 16-bit-range
    samples it is therefore in [-1,1]. *)
Theorem getInterpolated_between_neighbours (w : Wavetable.t) (x : Q)
    (Hx : 0 <= x < inject_Z (Z.of_nat (Wavetable.SIZE w)))
    (Hsamples : Forall (fun s => (-32767 <= s <= 32767)%Z)
                       (Wavetable.samples_ w)) :
  let i := Z.to_nat (Qfloor x) in
  let s1 := inject_Z (Wavetable.getSample w i) / SAMPLE_SCALE in
  let s2 := inject_Z (Wavetable.getSample w (i + 1)) / SAMPLE_SCALE in
  Qmin s1 s2 <= Wavetable.getInterpolated w x <= Qmax s1 s2
  /\ -1 <= Wavetable.getInterpolated w x <= 1.
Proof.
  intros i s1 s2.
  assert (HN : (0 < Wavetable.SIZE w)%nat).
  { destruct Hx as [H0 H1]. apply Nat2Z.inj_lt. apply inject_Z_lt_inv.
    change (inject_Z (Z.of_nat 0)) with 0. lra. }
  split; [|apply getInterpolated_range; assumption].
  rewrite (getInterpolated_inside w x Hx). cbv zeta. fold i.
  destruct Hx as [H0 H1].
  assert (Hz : (0 <= Qfloor x)%Z) by (apply (Qfloor_resp_le 0), H0).
  assert (Hi : (i < Wavetable.SIZE w)%nat).
  { unfold i. apply Nat2Z.inj_lt. rewrite Z2Nat.id by exact Hz.
    apply Qfloor_lt_intro, H1. }
  assert (E1 : Wavetable.getSample w i
               = nth i (Wavetable.samples_ w) 0%Z).
  { unfold Wavetable.getSample. rewrite Nat.mod_small by exact Hi.
    reflexivity. }
  assert (E2 : Wavetable.getSample w (i + 1)
               = nth ((i + 1) mod Wavetable.SIZE w)
                     (Wavetable.samples_ w) 0%Z) by reflexivity.
  unfold s1, s2. rewrite E1, E2.
  set (a := inject_Z (nth i (Wavetable.samples_ w) 0%Z)).
  set (b := inject_Z (nth ((i + 1) mod Wavetable.SIZE w)
                          (Wavetable.samples_ w) 0%Z)).
  pose proof (Qfloor_le x) as F1. pose proof (Qlt_floor x) as F2.
  rewrite inject_Z_plus in F2. change (inject_Z 1) with 1 in F2.
  assert (Ei : inject_Z (Z.of_nat i) = inject_Z (Qfloor x)).
  { unfold i. rewrite Z2Nat.id by exact Hz. reflexivity. }
  rewrite Ei.
  set (t := x - inject_Z (Qfloor x)).
  assert (Ht : 0 <= t < 1) by (unfold t; lra).
  unfold Qdiv, SAMPLE_SCALE. change (/ 32767) with (1 # 32767).
  pose proof (Q.le_min_l (a * (1 # 32767)) (b * (1 # 32767))) as M1.
  pose proof (Q.le_min_r (a * (1 # 32767)) (b * (1 # 32767))) as M2.
  pose proof (Q.le_max_l (a * (1 # 32767)) (b * (1 # 32767))) as M3.
  pose proof (Q.le_max_r (a * (1 # 32767)) (b * (1 # 32767))) as M4.
  set (lo := Qmin _ _) in *. set (hi := Qmax _ _) in *.
  destruct (Qlt_le_dec a b) as [Hab|Hab].
  - assert (P : 0 <= t * (b - a)) by (apply Qmult_le_0_compat; lra).
    assert (P' : 0 <= (1 - t) * (b - a)) by (apply Qmult_le_0_compat; lra).
    split; lra.
  - assert (P : 0 <= t * (a - b)) by (apply Qmult_le_0_compat; lra).
    assert (P' : 0 <= (1 - t) * (a - b)) by (apply Qmult_le_0_compat; lra).
    split; lra.
Qed.

Lemma getInterpolated_between_neighbours_witness :
  0 <= (2047 # 2) < inject_Z (Z.of_nat (Wavetable.SIZE Basic.SAW))
  /\ -1 <= Wavetable.getInterpolated Basic.SAW (2047 # 2) <= 1.
Proof.
  assert (Hx : 0 <= (2047 # 2)
               < inject_Z (Z.of_nat (Wavetable.SIZE Basic.SAW))).
  { unfold Basic.SAW, Basic.makeSawTable. rewrite makeWavetable_SIZE.
    split; [discriminate | reflexivity]. }
  assert (Hs : Forall (fun s => (-32767 <= s <= 32767)%Z)
                      (Wavetable.samples_ Basic.SAW)).
  { apply makeWavetable_in_range. }
  split; [exact Hx|].
  exact (proj2 (getInterpolated_between_neighbours Basic.SAW (2047 # 2)
                  Hx Hs)).
Defined.


(** ** The built-in tables and the bank *)

Section RealTables.
Local Open Scope R_scope.

Lemma Rtrunc_bounds (x : R) (hi : Z) :
  - (IZR hi + 1) < x < IZR hi + 1 -> (0 <= hi)%Z ->
  (- hi <= Rtrunc x <= hi)%Z.
Proof.
  intros [Hlo Hhi] H0. apply IZR_le in H0. unfold Rtrunc.
  destruct (Rle_dec 0 x) as [P|N].
  - destruct (Int_part_bounds x 0 hi) as [A B]; [Lra.lra|]. lia.
  - destruct (Int_part_bounds (- x) 0 hi) as [A B]; [Lra.lra|]. lia.
Qed.

Lemma std_clampR_unit (v : R) : -1 <= std_clampR v (-1) 1 <= 1.
Proof.
  unfold std_clampR.
  destruct (Rlt_dec v (-1)); [Lra.lra|]. destruct (Rlt_dec 1 v); Lra.lra.
Qed.

Lemma quantizeR_range (v : R) : (-32767 <= quantizeR v <= 32767)%Z.
Proof.
  unfold quantizeR. pose proof (std_clampR_unit v) as H.
  apply (Rtrunc_bounds _ 32767); [Lra.lra | lia].
Qed.

(** A value of magnitude at most [b <= 1] is not clipped, and its sample
    is within the truncation of [b * 32767]. *)
Lemma quantizeR_small (v b : R) (hi : Z) :
  Rabs v <= b -> b <= 1 -> b * 32767 < IZR hi + 1 -> (0 <= hi)%Z ->
  (- hi <= quantizeR v <= hi)%Z.
Proof.
  intros Hv Hb Hhi H0. unfold quantizeR, std_clampR.
  assert (Hv' : - b <= v <= b).
  { unfold Rabs in Hv. destruct (Rcase_abs v); Lra.lra. }
  destruct (Rlt_dec v (-1)); [Lra.lra|]. destruct (Rlt_dec 1 v); [Lra.lra|].
  apply Rtrunc_bounds; [Lra.lra | exact H0].
Qed.

Lemma soft_saw_sum_bound (p : R) :
  Rabs (fold_left (fun result harmonic =>
                     result + sin (INR harmonic * p) / INR harmonic)
                  (seq 1 8) 0)
  <= 761 / 280.
Proof.
  cbn [seq fold_left].
  repeat match goal with
  | |- context [INR ?n] =>
      let z := eval vm_compute in (Z.of_nat n) in
      replace (INR n) with (IZR z) by (rewrite INR_IZR_INZ; reflexivity)
  end.
  pose proof (SIN_bound (1 * p)). pose proof (SIN_bound (2 * p)).
  pose proof (SIN_bound (3 * p)). pose proof (SIN_bound (4 * p)).
  pose proof (SIN_bound (5 * p)). pose proof (SIN_bound (6 * p)).
  pose proof (SIN_bound (7 * p)). pose proof (SIN_bound (8 * p)).
  apply Rabs_le. Lra.lra.
Qed.

End RealTables.

Lemma makeWavetableR_in_range (n : nat) (g : nat -> R) :
  Forall (fun s => (-32767 <= s <= 32767)%Z)
         (Wavetable.samples_ (makeWavetableR n g)).
Proof.
  unfold makeWavetableR. cbn [Wavetable.samples_].
  apply Forall_map, Forall_forall. intros i _. apply quantizeR_range.
Qed.

(** X5: the band-limited sawtooth never clips: the sum of the eight
    harmonics scaled by 0.3 has magnitude at most 0.3 * 761/280 < 1, so
    every entry of the table is within -26717 .. 26717, short of full
    scale. *)
Theorem soft_saw_never_clips (i : nat) :
  (-26717 <= Wavetable.getSample Basic.SOFT_SAW i <= 26717)%Z
  /\ Wavetable.SIZE Basic.SOFT_SAW = 1024%nat.
Proof.
  assert (Hsize : Wavetable.SIZE Basic.SOFT_SAW = 1024%nat)
    by apply makeWavetableR_SIZE.
  split; [|exact Hsize].
  unfold Wavetable.getSample. rewrite Hsize.
  unfold Basic.SOFT_SAW, Basic.makeSoftSawTable.
  rewrite makeWavetableR_nth
    by (apply Nat.mod_upper_bound; discriminate).
  cbv zeta.
  set (p := Q2R _).
  pose proof (soft_saw_sum_bound p) as Hb.
  set (sum := fold_left _ _ _) in *.
  change (-26717)%Z with (- 26717)%Z.
  apply (quantizeR_small _ (761 / 280 * (3 / 10))%R 26717).
  - rewrite Rabs_mult, (Rabs_pos_eq (3 / 10)) by Lra.lra.
    apply Rmult_le_compat_r; [Lra.lra | exact Hb].
  - Lra.lra.
  - Lra.lra.
  - lia.
Qed.

Lemma basic_table_well_formed (waveform : Basic.Waveform) :
  Wavetable.SIZE (Basic.getWavetable waveform) = 1024%nat
  /\ Forall (fun s => (-32767 <= s <= 32767)%Z)
            (Wavetable.samples_ (Basic.getWavetable waveform)).
Proof.
  destruct waveform;
    unfold Basic.getWavetable, WavetableBank.getWave, Basic.BASIC_BANK,
      Basic.makeBasicBank, WavetableBank.numWaves;
    cbn [WavetableBank.waves_ length Basic.waveform_index Nat.modulo
         Nat.divmod fst snd Nat.sub nth].
  - split; [apply makeWavetableR_SIZE | apply makeWavetableR_in_range].
  - split; [apply makeWavetable_SIZE | apply makeWavetable_in_range].
  - split; [apply makeWavetable_SIZE | apply makeWavetable_in_range].
  - split; [apply makeWavetable_SIZE | apply makeWavetable_in_range].
  - split; [apply makeWavetableR_SIZE | apply makeWavetableR_in_range].
  - split; [apply makeWavetable_SIZE | apply makeWavetable_in_range].
Qed.

(** X6: the bank answers each waveform identifier with the table of that
    name, wraps a raw index modulo its six entries, and every table it
    holds has 1024 entries in the 16-bit sample range. *)
Theorem basic_bank_lookup (waveform : Basic.Waveform) (index : nat) :
  Basic.getWavetable Basic.W_SINE = Basic.SINE
  /\ Basic.getWavetable Basic.W_SAW = Basic.SAW
  /\ Basic.getWavetable Basic.W_SQUARE = Basic.SQUARE
  /\ Basic.getWavetable Basic.W_TRIANGLE = Basic.TRIANGLE
  /\ Basic.getWavetable Basic.W_SOFT_SAW = Basic.SOFT_SAW
  /\ Basic.getWavetable Basic.W_PULSE = Basic.PULSE
  /\ WavetableBank.getWave Basic.BASIC_BANK (index + 6)
     = WavetableBank.getWave Basic.BASIC_BANK index
  /\ Wavetable.SIZE (Basic.getWavetable waveform) = 1024%nat
  /\ Forall (fun s => (-32767 <= s <= 32767)%Z)
            (Wavetable.samples_ (Basic.getWavetable waveform)).
Proof.
  repeat (split; [reflexivity|]).
  split.
  - unfold WavetableBank.getWave.
    change (WavetableBank.numWaves Basic.BASIC_BANK) with 6%nat.
    replace (index + 6)%nat with (index + 1 * 6)%nat by lia.
    rewrite Nat.Div0.mod_add. reflexivity.
  - apply basic_table_well_formed.
Qed.

(** ** Oscillator: output range *)

Lemma oscillator_process_range (o : WavetableOscillator.t) :
  (0 < Wavetable.SIZE (WavetableOscillator.wavetable_ o))%nat ->
  Forall (fun s => (-32767 <= s <= 32767)%Z)
         (Wavetable.samples_ (WavetableOscillator.wavetable_ o)) ->
  0 <= WavetableOscillator.amplitude_ o <= 1 ->
  - WavetableOscillator.amplitude_ o
  <= fst (WavetableOscillator.process o)
  <= WavetableOscillator.amplitude_ o.
Proof.
  intros HN Hs Ha. unfold WavetableOscillator.process.
  destruct (PhaseAccumulator.tick (WavetableOscillator.phase_ o))
    as [phase pa].
  cbn [fst].
  pose proof (getInterpolated_range (WavetableOscillator.wavetable_ o)
                (phase * inject_Z (Z.of_nat
                   (Wavetable.SIZE (WavetableOscillator.wavetable_ o))))
                HN Hs) as Hr.
  set (v := Wavetable.getInterpolated _ _) in *.
  set (a := WavetableOscillator.amplitude_ o) in *.
  assert (P1 : 0 <= (v + 1) * a) by (apply Qmult_le_0_compat; lra).
  assert (P2 : 0 <= (1 - v) * a) by (apply Qmult_le_0_compat; lra).
  split; lra.
Qed.

(** What [process] leaves behind: the accumulator after one tick, the
    same table and the same amplitude. *)
Lemma oscillator_process_state (o : WavetableOscillator.t) :
  snd (WavetableOscillator.process o)
  = WavetableOscillator.mk
      (snd (PhaseAccumulator.tick (WavetableOscillator.phase_ o)))
      (WavetableOscillator.wavetable_ o)
      (WavetableOscillator.amplitude_ o).
Proof.
  unfold WavetableOscillator.process.
  destruct (PhaseAccumulator.tick (WavetableOscillator.phase_ o)).
  reflexivity.
Qed.

Lemma oscillator_ready_step (o : WavetableOscillator.t) :
  WavetableOscillator.ready o ->
  WavetableOscillator.ready (snd (WavetableOscillator.process o)).
Proof.
  intros (HN & Hs & Ha & Hi & Hp). rewrite oscillator_process_state.
  destruct (tick_wraps _ Hi Hp) as (A & B & C & _).
  unfold PhaseAccumulator.getPhase in B.
  unfold WavetableOscillator.ready.
  cbn [WavetableOscillator.wavetable_ WavetableOscillator.amplitude_
       WavetableOscillator.phase_].
  split; [exact HN|]. split; [exact Hs|]. split; [exact Ha|].
  split; [rewrite C; exact Hi|].
  unfold PhaseAccumulator.wrapped. rewrite B. exact A.
Qed.

Lemma oscillator_ready_iterate (n : nat) (o : WavetableOscillator.t) :
  WavetableOscillator.ready o ->
  WavetableOscillator.ready
    (iterate n (fun o => snd (WavetableOscillator.process o)) o)
  /\ WavetableOscillator.amplitude_
       (iterate n (fun o => snd (WavetableOscillator.process o)) o)
     = WavetableOscillator.amplitude_ o.
Proof.
  revert o. induction n as [|n IH]; intros o H; cbn [iterate]; [auto|].
  destruct (IH _ (oscillator_ready_step o H)) as [A B].
  split; [exact A|]. rewrite B, oscillator_process_state. reflexivity.
Qed.



(** X8: an oscillator made by [createOscillator] for any waveform, given
    any amplitude and a frequency from 0 up to (not including) the sample
    rate through its setters, returns a sample in [-1,1], and within the
    clamped amplitude, from every [process] call, however many came
    before; its phase stays in [0,1). *)
Theorem created_oscillator_stays_in_range
    (waveform : Basic.Waveform) (amplitude frequency : Q) (n : nat)
    (Hfreq : 0 <= frequency < SAMPLE_RATE_F) :
  let o := WavetableOscillator.setFrequency frequency
             (WavetableOscillator.setAmplitude amplitude
                (createOscillator waveform)) in
  let on := iterate n (fun o => snd (WavetableOscillator.process o)) o in
  -1 <= fst (WavetableOscillator.process on) <= 1
  /\ - std_clamp amplitude 0 1
     <= fst (WavetableOscillator.process on)
     <= std_clamp amplitude 0 1
  /\ WavetableOscillator.getAmplitude on = std_clamp amplitude 0 1
  /\ PhaseAccumulator.wrapped (WavetableOscillator.phase_ on).
Proof.
  intros o on.
  destruct (basic_table_well_formed waveform) as [Hsize Hs].
  assert (Hready : WavetableOscillator.ready o).
  { unfold WavetableOscillator.ready, o.
    cbn [WavetableOscillator.setFrequency WavetableOscillator.setAmplitude
         WavetableOscillator.wavetable_ WavetableOscillator.amplitude_
         WavetableOscillator.phase_ createOscillator
         WavetableOscillator.make PhaseAccumulator.setFrequency
         PhaseAccumulator.init PhaseAccumulator.increment_
         PhaseAccumulator.sample_rate_ PhaseAccumulator.phase_].
    split; [rewrite Hsize; apply Nat.lt_0_succ|].
    split; [exact Hs|]. split; [apply std_clamp_01|].
    split.
    - unfold SAMPLE_RATE_F, SAMPLE_RATE in *.
      change (inject_Z 22050) with 22050 in *.
      unfold Qdiv. change (/ 22050) with (1 # 22050). lra.
    - unfold PhaseAccumulator.wrapped. cbn [PhaseAccumulator.phase_].
      split; [discriminate | reflexivity]. }
  destruct (oscillator_ready_iterate n o Hready) as [Hn Ha]. fold on in Hn, Ha.
  destruct Hn as (HN & HS & Hamp & Hi & Hp).
  pose proof (oscillator_process_range on HN HS Hamp) as H.
  assert (Ea : WavetableOscillator.amplitude_ on = std_clamp amplitude 0 1).
  { rewrite Ha. reflexivity. }
  rewrite Ea in H, Hamp.
  unfold WavetableOscillator.getAmplitude.
  split; [lra|]. split; [exact H|]. split; [exact Ea | exact Hp].
Qed.

Lemma created_oscillator_stays_in_range_witness :
  0 <= 440 < SAMPLE_RATE_F
  /\ (let o := WavetableOscillator.setFrequency 440
                 (WavetableOscillator.setAmplitude (3 # 4)
                    (createOscillator Basic.W_TRIANGLE)) in
      -1 <= fst (WavetableOscillator.process
                   (iterate 100
                      (fun o => snd (WavetableOscillator.process o)) o))
         <= 1).
Proof.
  assert (Hf : 0 <= 440 < SAMPLE_RATE_F)
    by (split; [discriminate | reflexivity]).
  split; [exact Hf|].
  exact (proj1 (created_oscillator_stays_in_range Basic.W_TRIANGLE
                  (3 # 4) 440 100 Hf)).
Defined.


(** ** Noise generator: output range and distinct states *)

(** X9: from a valid state (a nonzero 32-bit word) and an amplitude in
    [0,1], [process] returns a sample between minus the amplitude and the
    amplitude, hence in [-1,1], and leaves a valid state and the same
    amplitude. *)
Theorem noise_output_within_amplitude (g : NoiseGenerator.t)
    (Hstate : (0 < NoiseGenerator.state_ g < 2 ^ 32)%Z)
    (Hamp : 0 <= NoiseGenerator.amplitude_ g <= 1) :
  - NoiseGenerator.getAmplitude g
  <= fst (NoiseGenerator.process g)
  <= NoiseGenerator.getAmplitude g
  /\ -1 <= fst (NoiseGenerator.process g) <= 1
  /\ (0 < NoiseGenerator.state_ (snd (NoiseGenerator.process g)) < 2 ^ 32)%Z
  /\ NoiseGenerator.getAmplitude (snd (NoiseGenerator.process g))
     = NoiseGenerator.getAmplitude g.
Proof.
  unfold NoiseGenerator.process, NoiseGenerator.getAmplitude.
  cbn [fst snd NoiseGenerator.state_ NoiseGenerator.amplitude_].
  pose proof (xorshift_nonzero _ Hstate) as [X0 X1].
  set (s := NoiseGenerator.xorshift (NoiseGenerator.state_ g)) in *.
  assert (S0 : 0 < inject_Z s) by (apply (inject_Z_lt 0); exact X0).
  assert (S1 : inject_Z s <= 4294967295)
    by (apply (inject_Z_le s 4294967295); lia).
  change (inject_Z NoiseGenerator.UINT32_MAX) with 4294967295.
  unfold Qdiv. change (/ 4294967295) with (1 # 4294967295).
  set (x := inject_Z s) in *.
  set (a := NoiseGenerator.amplitude_ g) in *.
  set (v := x * (1 # 4294967295) * 2 - 1).
  assert (Hv : -1 < v <= 1) by (unfold v; lra).
  assert (P1 : 0 <= (v + 1) * a) by (apply Qmult_le_0_compat; lra).
  assert (P2 : 0 <= (1 - v) * a) by (apply Qmult_le_0_compat; lra).
  split; [split; lra|]. split; [split; lra|].
  split; [split; assumption | reflexivity].
Qed.

Lemma noise_output_within_amplitude_witness :
  let g := NoiseGenerator.setAmplitude (3 # 4) (NoiseGenerator.make 12345) in
  (0 < NoiseGenerator.state_ g < 2 ^ 32)%Z
  /\ 0 <= NoiseGenerator.amplitude_ g <= 1
  /\ - (3 # 4) <= fst (NoiseGenerator.process g) <= 3 # 4.
Proof.
  intro g.
  assert (H1 : (0 < NoiseGenerator.state_ g < 2 ^ 32)%Z)
    by (vm_compute; split; reflexivity).
  assert (H2 : 0 <= NoiseGenerator.amplitude_ g <= 1)
    by (split; vm_compute; discriminate).
  split; [exact H1|]. split; [exact H2|].
  exact (proj1 (noise_output_within_amplitude g H1 H2)).
Defined.

Lemma wrap32_land (x : Z) : NoiseGenerator.wrap32 x = Z.land x (Z.ones 32).
Proof. unfold NoiseGenerator.wrap32. rewrite Z.land_ones by lia. reflexivity. Qed.

Lemma lxor_shuffle (a b c d : Z) :
  Z.lxor (Z.lxor a c) (Z.lxor b d) = Z.lxor (Z.lxor a b) (Z.lxor c d).
Proof.
  apply Z.bits_inj'. intros n _. rewrite !Z.lxor_spec.
  destruct (Z.testbit a n), (Z.testbit b n), (Z.testbit c n),
    (Z.testbit d n); reflexivity.
Qed.

Lemma land_lxor_ones (a b m : Z) :
  Z.lxor (Z.land a m) (Z.land b m) = Z.land (Z.lxor a b) m.
Proof.
  apply Z.bits_inj'. intros n _.
  rewrite !Z.lxor_spec, !Z.land_spec, Z.lxor_spec.
  destruct (Z.testbit a n), (Z.testbit b n), (Z.testbit m n); reflexivity.
Qed.

Lemma xor_shl_injective (k a b : Z) :
  (0 <= k)%Z -> Z.gcd (2 ^ 32) (2 ^ k - 1) = 1%Z ->
  (0 <= a < 2 ^ 32)%Z -> (0 <= b < 2 ^ 32)%Z ->
  Z.lxor a (NoiseGenerator.wrap32 (Z.shiftl a k))
  = Z.lxor b (NoiseGenerator.wrap32 (Z.shiftl b k)) ->
  a = b.
Proof.
  intros Hk Hg Ha Hb E.
  apply Z.lxor_eq.
  pose proof (lxor_range32 a b Ha Hb) as Hd.
  destruct (Z.eq_dec (Z.lxor a b) 0) as [Z0|NZ]; [exact Z0|].
  exfalso.
  pose proof (xor_shl_nonzero k (Z.lxor a b) Hk Hg ltac:(lia)) as [P _].
  assert (Q0 : Z.lxor (Z.lxor a b)
                 (NoiseGenerator.wrap32 (Z.shiftl (Z.lxor a b) k)) = 0%Z).
  { rewrite wrap32_land, Z.shiftl_lxor, <- land_lxor_ones, <- !wrap32_land.
    rewrite <- lxor_shuffle, E. apply Z.lxor_nilpotent. }
  lia.
Qed.

Lemma xor_shr_injective (k a b : Z) :
  (0 < k)%Z -> (0 <= a < 2 ^ 32)%Z -> (0 <= b < 2 ^ 32)%Z ->
  Z.lxor a (Z.shiftr a k) = Z.lxor b (Z.shiftr b k) -> a = b.
Proof.
  intros Hk Ha Hb E.
  apply Z.lxor_eq.
  pose proof (lxor_range32 a b Ha Hb) as Hd.
  destruct (Z.eq_dec (Z.lxor a b) 0) as [Z0|NZ]; [exact Z0|].
  exfalso.
  pose proof (xor_shr_nonzero k (Z.lxor a b) Hk ltac:(lia)) as [P _].
  assert (Q0 : Z.lxor (Z.lxor a b) (Z.shiftr (Z.lxor a b) k) = 0%Z).
  { rewrite Z.shiftr_lxor, <- lxor_shuffle, E. apply Z.lxor_nilpotent. }
  lia.
Qed.

Lemma xor_shl_range (k s : Z) :
  (0 <= s < 2 ^ 32)%Z ->
  (0 <= Z.lxor s (NoiseGenerator.wrap32 (Z.shiftl s k)) < 2 ^ 32)%Z.
Proof. intro H. apply lxor_range32; [exact H | apply wrap32_range]. Qed.

Lemma xor_shr_range (k s : Z) :
  (0 <= k)%Z -> (0 <= s < 2 ^ 32)%Z ->
  (0 <= Z.lxor s (Z.shiftr s k) < 2 ^ 32)%Z.
Proof.
  intros Hk H. apply lxor_range32; [exact H|].
  rewrite Z.shiftr_div_pow2 by exact Hk. split.
  - apply Z.div_pos; lia.
  - apply Z.le_lt_trans with s; [|lia].
    apply Z.div_le_upper_bound; [lia|].
    assert (1 <= 2 ^ k)%Z by (apply (Z.pow_le_mono_r 2 0 k); lia). nia.
Qed.

Lemma xorshift_equal_inputs (a b : Z) :
  (0 <= a < 2 ^ 32)%Z -> (0 <= b < 2 ^ 32)%Z ->
  NoiseGenerator.xorshift a = NoiseGenerator.xorshift b -> a = b.
Proof.
  intros Ha Hb Heq. unfold NoiseGenerator.xorshift in Heq.
  pose proof (xor_shl_range 13 a Ha) as A1.
  pose proof (xor_shl_range 13 b Hb) as B1.
  pose proof (xor_shr_range 17 _ ltac:(lia) A1) as A2.
  pose proof (xor_shr_range 17 _ ltac:(lia) B1) as B2.
  apply (xor_shl_injective 5) in Heq; [|lia|reflexivity|exact A2|exact B2].
  apply (xor_shr_injective 17) in Heq; [|lia|exact A1|exact B1].
  apply (xor_shl_injective 13) in Heq;
    [exact Heq|lia|reflexivity|exact Ha|exact Hb].
Qed.

(** X10: one xorshift update is one-to-one on 32-bit words: two different
    states are never sent to the same state, so two noise generators that
    differ now differ after every later [process] call. *)
Theorem xorshift_injective (a b : Z) (n : nat)
    (Ha : (0 <= a < 2 ^ 32)%Z) (Hb : (0 <= b < 2 ^ 32)%Z)
    (Hneq : a <> b) :
  NoiseGenerator.xorshift a <> NoiseGenerator.xorshift b
  /\ NoiseGenerator.state_
       (iterate n (fun g => snd (NoiseGenerator.process g))
                (NoiseGenerator.mk a 1))
     <> NoiseGenerator.state_
          (iterate n (fun g => snd (NoiseGenerator.process g))
                   (NoiseGenerator.mk b 1)).
Proof.
  split.
  - intro E. apply Hneq. apply xorshift_equal_inputs; assumption.
  - revert a b Ha Hb Hneq. induction n as [|n IH]; intros a b Ha Hb Hneq.
    + exact Hneq.
    + cbn [iterate NoiseGenerator.process snd NoiseGenerator.state_
           NoiseGenerator.amplitude_].
      apply IH.
      * unfold NoiseGenerator.xorshift.
        apply xor_shl_range, xor_shr_range; [lia|]. apply xor_shl_range, Ha.
      * unfold NoiseGenerator.xorshift.
        apply xor_shl_range, xor_shr_range; [lia|]. apply xor_shl_range, Hb.
      * intro E. apply Hneq. apply xorshift_equal_inputs; assumption.
Qed.

Lemma xorshift_injective_witness :
  (0 <= 1 < 2 ^ 32)%Z /\ (0 <= 2 < 2 ^ 32)%Z /\ 1%Z <> 2%Z
  /\ NoiseGenerator.xorshift 1 <> NoiseGenerator.xorshift 2.
Proof.
  assert (H1 : (0 <= 1 < 2 ^ 32)%Z) by lia.
  assert (H2 : (0 <= 2 < 2 ^ 32)%Z) by lia.
  assert (H3 : 1%Z <> 2%Z) by discriminate.
  split; [exact H1|]. split; [exact H2|]. split; [exact H3|].
  exact (proj1 (xorshift_injective 1 2 0 H1 H2 H3)).
Defined.

(** ** Filters *)

Lemma Qinv_between (r lo hi : Q) :
  0 < lo -> lo <= r <= hi -> 1 / hi <= 1 / r <= 1 / lo.
Proof.
  intros Hlo [H1 H2].
  assert (Hr : 0 < r) by lra. assert (Hhi : 0 < hi) by lra.
  split.
  - apply Qle_shift_div_l; [exact Hr|].
    setoid_replace (1 / hi * r) with (r / hi) by (field; lra).
    apply Qle_shift_div_r; [exact Hhi | lra].
  - apply Qle_shift_div_r; [exact Hr|].
    setoid_replace (1 / lo * r) with (r / lo) by (field; lra).
    apply Qle_shift_div_l; [exact Hlo | lra].
Qed.

(** X11: whatever cutoff and resonance are requested and whatever [sin]
    returns, after [setParams] the frequency coefficient is in [0, 1.9],
    the stored resonance in [0.1, 10] and the damping [q] in [0.1, 2]: the
    lower clamp bound 0.01 of [q] is never reached, and every resonance of
    0.5 or less gives the same damping 2.  The filter's running state is
    left alone. *)
Theorem svf_coefficients (sinf : Q -> Q) (cutoff resonance : Q)
    (s : StateVariable.t) :
  let s' := StateVariable.setParams sinf cutoff resonance s in
  0 <= StateVariable.f_ s' <= 19 # 10
  /\ (1 # 10) <= StateVariable.getResonance s' <= 10
  /\ (1 # 10) <= StateVariable.q_ s' <= 2
  /\ (StateVariable.getResonance s' <= 1 # 2 -> StateVariable.q_ s' == 2)
  /\ StateVariable.getLowPass s' = StateVariable.getLowPass s
  /\ StateVariable.getBandPass s' = StateVariable.getBandPass s
  /\ StateVariable.getHighPass s' = StateVariable.getHighPass s.
Proof.
  intro s'. unfold s', StateVariable.setParams,
    StateVariable.updateCoefficients, StateVariable.getResonance,
    StateVariable.getLowPass, StateVariable.getBandPass,
    StateVariable.getHighPass.
  cbn [StateVariable.f_ StateVariable.q_ StateVariable.resonance_
       StateVariable.cutoff_ StateVariable.sample_rate_
       StateVariable.low_ StateVariable.band_ StateVariable.high_].
  assert (Hb : (1 # 10) <= 10) by lra.
  pose proof (std_clamp_range resonance (1 # 10) 10 Hb) as Hr.
  set (r := std_clamp resonance (1 # 10) 10) in *.
  assert (Hp : 0 < 1 # 10) by reflexivity.
  pose proof (Qinv_between r (1 # 10) 10 Hp Hr) as [I1 I2].
  assert (E1 : 1 / 10 == 1 # 10) by reflexivity.
  assert (E2 : 1 / (1 # 10) == 10) by reflexivity.
  rewrite E1 in I1. rewrite E2 in I2.
  split.
  { apply std_clamp_range. lra. }
  split; [exact Hr|].
  split.
  { unfold std_clamp. qcase; lra. }
  split.
  { intro Hhalf.
    assert (H2 : 2 <= 1 / r) by (apply Qle_shift_div_l; lra).
    unfold std_clamp. qcase; try lra; reflexivity. }
  repeat split.
Qed.

Lemma svf_coefficients_witness :
  let sinf := fun x : Q => x in
  let s' := StateVariable.setParams sinf 1000 (3 # 10) StateVariable.init in
  StateVariable.getResonance s' <= 1 # 2 /\ StateVariable.q_ s' == 2.
Proof.
  intros sinf s'.
  assert (H : StateVariable.getResonance s' <= 1 # 2)
    by (vm_compute; discriminate).
  split; [exact H|].
  exact (proj1 (proj2 (proj2 (proj2
           (svf_coefficients sinf 1000 (3 # 10) StateVariable.init)))) H).
Defined.

Lemma snap_zero (v : Q) : v == 0 -> StateVariable.snap v = 0.
Proof.
  intro H. unfold StateVariable.snap.
  destruct (Qltb (Qabs v) (1 # 10000000000)) eqn:E; [reflexivity|].
  apply Qltb_false in E. rewrite H in E.
  exfalso. revert E. apply Qlt_not_le. reflexivity.
Qed.

Lemma snap_spec (v : Q) :
  StateVariable.snap v = 0
  \/ (StateVariable.snap v = v /\ (1 # 10000000000) <= Qabs v).
Proof.
  unfold StateVariable.snap.
  destruct (Qltb (Qabs v) (1 # 10000000000)) eqn:E.
  - left. reflexivity.
  - right. split; [reflexivity | apply Qltb_false, E].
Qed.

(** X12: one [process] call of the state-variable filter leaves each of
    its three outputs either exactly 0 or of magnitude at least 1e-10, so
    values on the way to the denormal range are flushed; the coefficients
    are not touched; and a reset filter fed silence stays exactly at
    rest. *)
Theorem svf_process_flushes_denormals (input : Q) (s : StateVariable.t) :
  let s' := StateVariable.process input s in
  (StateVariable.getLowPass s' = 0
   \/ (1 # 10000000000) <= Qabs (StateVariable.getLowPass s'))
  /\ (StateVariable.getBandPass s' = 0
      \/ (1 # 10000000000) <= Qabs (StateVariable.getBandPass s'))
  /\ (StateVariable.getHighPass s' = 0
      \/ (1 # 10000000000) <= Qabs (StateVariable.getHighPass s'))
  /\ StateVariable.f_ s' = StateVariable.f_ s
  /\ StateVariable.q_ s' = StateVariable.q_ s
  /\ StateVariable.process 0 (StateVariable.reset s) = StateVariable.reset s.
Proof.
  intro s'.
  assert (Hsnap : forall v, StateVariable.snap v = 0
                            \/ (1 # 10000000000) <= Qabs (StateVariable.snap v)).
  { intro v. destruct (snap_spec v) as [E|[E H]];
      [left; exact E | right; rewrite E; exact H]. }
  unfold s', StateVariable.process, StateVariable.getLowPass,
    StateVariable.getBandPass, StateVariable.getHighPass.
  cbv zeta.
  cbn [StateVariable.low_ StateVariable.band_ StateVariable.high_
       StateVariable.f_ StateVariable.q_].
  split; [apply Hsnap|]. split; [apply Hsnap|]. split; [apply Hsnap|].
  split; [reflexivity|]. split; [reflexivity|].
  unfold StateVariable.reset.
  cbn [StateVariable.low_ StateVariable.band_ StateVariable.high_
       StateVariable.f_ StateVariable.q_ StateVariable.sample_rate_
       StateVariable.cutoff_ StateVariable.resonance_].
  rewrite !snap_zero by ring. reflexivity.
Qed.

(** X13: a biquad that has not been configured passes every input
    through unchanged, sample after sample; with any coefficients, a
    reset biquad fed silence returns silence and stays at rest; [reset]
    clears the four history values and keeps the coefficients. *)
Theorem biquad_default_is_passthrough (inputs : list Q) (n : nat)
    (b0 b1 b2 a1 a2 : Q) (f : Biquad.t) :
  Forall2 Qeq (fst (Biquad.process_all inputs Biquad.init)) inputs
  /\ (let g := Biquad.reset (Biquad.setCoefficients b0 b1 b2 a1 a2 f) in
      Forall (fun y => y == 0)
             (fst (Biquad.process_all (repeat 0 n) g))
      /\ Biquad.b0_ g = b0 /\ Biquad.b1_ g = b1 /\ Biquad.b2_ g = b2
      /\ Biquad.a1_ g = a1 /\ Biquad.a2_ g = a2
      /\ Biquad.x1_ g = 0 /\ Biquad.x2_ g = 0
      /\ Biquad.y1_ g = 0 /\ Biquad.y2_ g = 0).
Proof.
  split.
  - assert (G : forall x1 x2 y1 y2,
               Forall2 Qeq
                 (fst (Biquad.process_all inputs
                         (Biquad.mk x1 x2 y1 y2 1 0 0 0 0 SAMPLE_RATE_F)))
                 inputs).
    { induction inputs as [|x rest IH]; intros x1 x2 y1 y2;
        cbn [Biquad.process_all]; [constructor|].
      unfold Biquad.process at 1.
      cbn [Biquad.b0_ Biquad.b1_ Biquad.b2_ Biquad.a1_ Biquad.a2_
           Biquad.x1_ Biquad.x2_ Biquad.y1_ Biquad.y2_
           Biquad.sample_rate_].
      set (out := 1 * x + 0 * x1 + 0 * x2 - 0 * y1 - 0 * y2).
      specialize (IH x x1 out y1).
      destruct (Biquad.process_all rest _) as [ys f'].
      cbn [fst] in *. constructor; [unfold out; ring | exact IH]. }
    apply G.
  - intro g.
    split; [|unfold g, Biquad.reset, Biquad.setCoefficients,
               Biquad.with_coefficients; cbn; repeat split].
    assert (G : forall (h : Biquad.t),
               Biquad.x1_ h == 0 -> Biquad.x2_ h == 0 ->
               Biquad.y1_ h == 0 -> Biquad.y2_ h == 0 ->
               Forall (fun y => y == 0)
                      (fst (Biquad.process_all (repeat 0 n) h))).
    { induction n as [|k IH]; intros h X1 X2 Y1 Y2;
        cbn [repeat Biquad.process_all]; [constructor|].
      unfold Biquad.process at 1.
      set (out := Biquad.b0_ h * 0 + Biquad.b1_ h * Biquad.x1_ h
                  + Biquad.b2_ h * Biquad.x2_ h
                  - Biquad.a1_ h * Biquad.y1_ h
                  - Biquad.a2_ h * Biquad.y2_ h).
      assert (Hout : out == 0).
      { unfold out. rewrite X1, X2, Y1, Y2. ring. }
      match goal with
      | |- context [Biquad.process_all (repeat 0 k) ?h'] =>
          specialize (IH h'); destruct (Biquad.process_all (repeat 0 k) h')
            as [ys f']
      end.
      cbn [fst] in *. constructor; [exact Hout|].
      apply IH; cbn; try reflexivity; assumption. }
    apply G; unfold g; reflexivity.
Qed.

(** ** LFO *)

Lemma lfo_noise_value_range (s : Z) :
  (0 < s < 2 ^ 32)%Z -> -1 <= LFO.noise_value s <= 1.
Proof.
  intros [H0 H1]. unfold LFO.noise_value.
  assert (S0 : 0 < inject_Z s) by (apply (inject_Z_lt 0); exact H0).
  assert (S1 : inject_Z s <= 4294967295)
    by (apply (inject_Z_le s 4294967295); lia).
  change (inject_Z NoiseGenerator.UINT32_MAX) with 4294967295.
  unfold Qdiv. change (/ 4294967295) with (1 # 4294967295). split; lra.
Qed.

Lemma lfo_phase_step (phase frequency sample_rate : Q) :
  0 <= phase < 1 -> (1 # 1000) <= frequency <= 100 -> 100 < sample_rate ->
  0 < frequency / sample_rate < 1.
Proof.
  intros Hp Hf Hr. split.
  - apply Qlt_shift_div_l; lra.
  - apply Qlt_shift_div_r; lra.
Qed.

(** One [process] call from a state that satisfies the invariant. *)
Lemma lfo_process_inv (sinf : Q -> Q) (l : LFO.t) :
  (forall x, -1 <= sinf x <= 1) ->
  LFO.inv l ->
  LFO.inv (snd (LFO.process sinf l))
  /\ LFO.offset_ l - LFO.amplitude_ l
     <= fst (LFO.process sinf l)
     <= LFO.offset_ l + LFO.amplitude_ l.
Proof.
  intros Hsin (Hp & Hf & Ha & Ho & Hr & Hh & Hn).
  pose proof (lfo_phase_step _ _ _ Hp Hf Hr) as Hd.
  pose proof (xorshift_nonzero _ Hn) as Hx.
  pose proof (lfo_noise_value_range _ Hx) as Hv.
  assert (Hphase : 0 <= (if Qgeb (LFO.phase_ l
                                  + LFO.frequency_ l / LFO.sample_rate_ l) 1
                         then LFO.phase_ l
                              + LFO.frequency_ l / LFO.sample_rate_ l - 1
                         else LFO.phase_ l
                              + LFO.frequency_ l / LFO.sample_rate_ l) < 1).
  { set (d := LFO.frequency_ l / LFO.sample_rate_ l) in *. qcase; lra. }
  assert (Hscale : forall out, -1 <= out <= 1 ->
            LFO.offset_ l - LFO.amplitude_ l
            <= out * LFO.amplitude_ l + LFO.offset_ l
            <= LFO.offset_ l + LFO.amplitude_ l).
  { intros out Hout.
    assert (P1 : 0 <= (out + 1) * LFO.amplitude_ l)
      by (apply Qmult_le_0_compat; lra).
    assert (P2 : 0 <= (1 - out) * LFO.amplitude_ l)
      by (apply Qmult_le_0_compat; lra).
    split; lra. }
  unfold LFO.process, LFO.inv.
  destruct (LFO.waveform_ l) eqn:W.
  - cbn [fst snd LFO.phase_ LFO.frequency_ LFO.amplitude_ LFO.offset_
         LFO.sample_rate_ LFO.hold_value_ LFO.noise_state_].
    split; [repeat split; try apply Hphase; try lra; try lia|].
    apply Hscale, Hsin.
  - cbn [fst snd LFO.phase_ LFO.frequency_ LFO.amplitude_ LFO.offset_
         LFO.sample_rate_ LFO.hold_value_ LFO.noise_state_].
    split; [repeat split; try apply Hphase; try lra; try lia|].
    apply Hscale. qcase; lra.
  - cbn [fst snd LFO.phase_ LFO.frequency_ LFO.amplitude_ LFO.offset_
         LFO.sample_rate_ LFO.hold_value_ LFO.noise_state_].
    split; [repeat split; try apply Hphase; try lra; try lia|].
    apply Hscale. lra.
  - cbn [fst snd LFO.phase_ LFO.frequency_ LFO.amplitude_ LFO.offset_
         LFO.sample_rate_ LFO.hold_value_ LFO.noise_state_].
    split; [repeat split; try apply Hphase; try lra; try lia|].
    apply Hscale. qcase; lra.
  - destruct (Qltb (LFO.phase_ l) (LFO.frequency_ l / LFO.sample_rate_ l));
      cbn [fst snd LFO.phase_ LFO.frequency_ LFO.amplitude_ LFO.offset_
           LFO.sample_rate_ LFO.hold_value_ LFO.noise_state_].
    + split; [repeat split; try apply Hphase; try lra; try lia|].
      apply Hscale, Hv.
    + split; [repeat split; try apply Hphase; try lra; try lia|].
      apply Hscale, Hh.
  - cbn [fst snd LFO.phase_ LFO.frequency_ LFO.amplitude_ LFO.offset_
         LFO.sample_rate_ LFO.hold_value_ LFO.noise_state_].
    split; [repeat split; try apply Hphase; try lra; try lia|].
    apply Hscale, Hv.
Qed.

Lemma lfo_step_inv (sinf : Q -> Q) (c : LFO.call) (l : LFO.t) :
  (forall x, -1 <= sinf x <= 1) ->
  LFO.fast_rate c -> LFO.inv l -> LFO.inv (LFO.step sinf c l).
Proof.
  intros Hsin Hc Hl. destruct c; cbn [LFO.step].
  - destruct Hl as (Hp & Hf & Ha & Ho & Hr & Hh & Hn).
    unfold LFO.inv, LFO.setFrequency. cbn.
    repeat split; try lra; try lia; try apply Hp;
      apply std_clamp_range; lra.
  - destruct Hl as (Hp & Hf & Ha & Ho & Hr & Hh & Hn).
    unfold LFO.inv, LFO.setAmplitude. cbn.
    repeat split; try lra; try lia; try apply Hp;
      apply std_clamp_range; lra.
  - destruct Hl as (Hp & Hf & Ha & Ho & Hr & Hh & Hn).
    unfold LFO.inv, LFO.setOffset. cbn.
    repeat split; try lra; try lia; try apply Hp;
      apply std_clamp_range; lra.
  - exact Hl.
  - destruct Hl as (Hp & Hf & Ha & Ho & Hr & Hh & Hn).
    unfold LFO.inv, LFO.setSampleRate. cbn.
    repeat split; try lra; try lia; try apply Hp. exact Hc.
  - apply lfo_process_inv; assumption.
  - destruct Hl as (Hp & Hf & Ha & Ho & Hr & Hh & Hn).
    unfold LFO.inv, LFO.reset. cbn.
    repeat split; try lra; try lia.
Qed.

Lemma lfo_init_inv : LFO.inv LFO.init.
Proof.
  unfold LFO.inv, LFO.init. cbn.
  repeat split; try discriminate; try reflexivity.
Qed.

Lemma lfo_run_inv (sinf : Q -> Q) (cs : list LFO.call) (l : LFO.t) :
  (forall x, -1 <= sinf x <= 1) ->
  Forall LFO.fast_rate cs -> LFO.inv l -> LFO.inv (LFO.run sinf cs l).
Proof.
  intros Hsin Hcs. unfold LFO.run. revert l.
  induction Hcs as [|c cs Hc Hcs IH]; intros l Hl; cbn [fold_left];
    [exact Hl|].
  apply IH, lfo_step_inv; assumption.
Qed.

(** X14: for a sine with values in [-1,1] and sample rates above 100 Hz,
    whatever calls an LFO has received (setters with any arguments,
    [process], [reset]), its phase is in [0,1), its frequency in
    [0.001, 100], its amplitude in [0,1], its offset in [-1,1] and its
    noise word nonzero; the next [process] call returns a value between
    offset - amplitude and offset + amplitude, hence in [-2,2], for each
    of the six waveforms. *)
Theorem lfo_output_range (sinf : Q -> Q) (cs : list LFO.call)
    (Hsin : forall x, -1 <= sinf x <= 1)
    (Hrate : Forall LFO.fast_rate cs) :
  let l := LFO.run sinf cs LFO.init in
  LFO.inv l
  /\ LFO.getOffset l - LFO.getAmplitude l
     <= fst (LFO.process sinf l)
     <= LFO.getOffset l + LFO.getAmplitude l
  /\ -2 <= fst (LFO.process sinf l) <= 2.
Proof.
  intro l.
  assert (Hl : LFO.inv l) by (apply lfo_run_inv; [| |apply lfo_init_inv]; assumption).
  destruct (lfo_process_inv sinf l Hsin Hl) as [_ H].
  destruct Hl as (Hp & Hf & Ha & Ho & Hr & Hh & Hn).
  unfold LFO.getOffset, LFO.getAmplitude.
  split; [repeat split; assumption || apply Hp || apply Hf || apply Ha
                        || apply Ho || apply Hh || apply Hn|].
  split; [exact H | split; lra].
Qed.

Lemma lfo_output_range_witness :
  let sinf := fun _ : Q => 0 in
  let cs := [LFO.SetWaveform LFO.TRIANGLE; LFO.SetFrequency 5;
             LFO.SetOffset (1 # 4); LFO.Process; LFO.Process] in
  (forall x, -1 <= sinf x <= 1)
  /\ Forall LFO.fast_rate cs
  /\ -2 <= fst (LFO.process sinf (LFO.run sinf cs LFO.init)) <= 2.
Proof.
  intros sinf cs.
  assert (Hsin : forall x, -1 <= sinf x <= 1)
    by (intro x; split; discriminate).
  assert (Hcs : Forall LFO.fast_rate cs)
    by (repeat constructor).
  split; [exact Hsin|]. split; [exact Hcs|].
  exact (proj2 (proj2 (lfo_output_range sinf cs Hsin Hcs))).
Defined.

(** ** PWM output and audio engine *)

Lemma sampleToPWM_range (sample : Q) :
  (0 <= PWMAudioOutput.sampleToPWM sample <= PWMAudioOutput.PWM_MAX_VALUE)%Z.
Proof.
  unfold PWMAudioOutput.sampleToPWM, std_clampZ. cbv zeta.
  change PWMAudioOutput.PWM_MAX_VALUE with 4095%Z.
  set (v := Qtrunc _).
  destruct (v <? 0)%Z eqn:E1; [lia|].
  destruct (4095 <? v)%Z eqn:E2; [lia|].
  apply Z.ltb_ge in E1, E2. lia.
Qed.

Lemma sampleToPWM_silence :
  PWMAudioOutput.sampleToPWM 0 = PWMAudioOutput.PWM_CENTER.
Proof. reflexivity. Qed.

Section Output.

Variable Callback : Type.

Lemma codes_valid_emit (ev : PWMAudioOutput.event)
    (s : PWMAudioOutput.t Callback) :
  PWMAudioOutput.codes_valid s ->
  match ev with
  | PWMAudioOutput.AnalogWrite _ code =>
      (0 <= code <= PWMAudioOutput.PWM_MAX_VALUE)%Z
  | _ => True
  end ->
  PWMAudioOutput.codes_valid (PWMAudioOutput.emit ev s).
Proof.
  unfold PWMAudioOutput.codes_valid, PWMAudioOutput.written_codes,
    PWMAudioOutput.emit.
  cbn [PWMAudioOutput.log_ flat_map]. intros Hs Hev.
  destruct ev; cbn [app]; try exact Hs. constructor; assumption.
Qed.

Lemma center_valid :
  (0 <= PWMAudioOutput.PWM_CENTER <= PWMAudioOutput.PWM_MAX_VALUE)%Z.
Proof. vm_compute. split; discriminate. Qed.

Lemma codes_valid_setCallback (cb : option Callback)
    (s : PWMAudioOutput.t Callback) :
  PWMAudioOutput.codes_valid s ->
  PWMAudioOutput.codes_valid (PWMAudioOutput.setCallback cb s).
Proof. intro H. exact H. Qed.

Lemma codes_valid_end (s : PWMAudioOutput.t Callback) :
  PWMAudioOutput.codes_valid s ->
  PWMAudioOutput.codes_valid (PWMAudioOutput.end_ s).
Proof.
  intro H. unfold PWMAudioOutput.end_, PWMAudioOutput.stopTimer.
  apply codes_valid_setCallback.
  assert (H1 : PWMAudioOutput.codes_valid
                 (if PWMAudioOutput.timer_active_ s
                  then
                    let s0 :=
                      PWMAudioOutput.emit
                        (PWMAudioOutput.CancelAlarm
                           PWMAudioOutput.AUDIO_ALARM_NUM) s in
                    PWMAudioOutput.mk Callback
                      (PWMAudioOutput.output_pin_ s0)
                      (PWMAudioOutput.sample_rate_ s0)
                      (PWMAudioOutput.callback_ s0) false
                      (PWMAudioOutput.timer_period_us_ s0)
                      (PWMAudioOutput.log_ s0)
                  else s)).
  { destruct (PWMAudioOutput.timer_active_ s); [|exact H].
    exact (codes_valid_emit (PWMAudioOutput.CancelAlarm _) s H I). }
  cbv zeta.
  match goal with
  | |- context [(PWMAudioOutput.output_pin_ ?x =? 255)%Z] =>
      destruct (PWMAudioOutput.output_pin_ x =? 255)%Z; [exact H1|]
  end.
  apply codes_valid_emit; [exact H1 | apply center_valid].
Qed.

Lemma codes_valid_begin (alarm_in_us : Z -> bool) (pin sample_rate : Z)
    (s : PWMAudioOutput.t Callback) :
  PWMAudioOutput.codes_valid s ->
  PWMAudioOutput.codes_valid
    (snd (PWMAudioOutput.begin alarm_in_us pin sample_rate s)).
Proof.
  intro H. unfold PWMAudioOutput.begin, PWMAudioOutput.setupTimer.
  cbv zeta.
  assert (H1 : PWMAudioOutput.codes_valid
                 (if PWMAudioOutput.timer_active_ s
                  then PWMAudioOutput.end_ s else s)).
  { destruct (PWMAudioOutput.timer_active_ s);
      [apply codes_valid_end, H | exact H]. }
  set (s1 := if PWMAudioOutput.timer_active_ s
             then PWMAudioOutput.end_ s else s) in *.
  set (s2 := PWMAudioOutput.mk Callback pin sample_rate
               (PWMAudioOutput.callback_ s1)
               (PWMAudioOutput.timer_active_ s1)
               (1000000 / sample_rate)%Z (PWMAudioOutput.log_ s1)).
  assert (H2 : PWMAudioOutput.codes_valid s2) by exact H1.
  set (s3 := PWMAudioOutput.emit _ s2).
  assert (H3 : PWMAudioOutput.codes_valid s3)
    by (apply codes_valid_emit; [exact H2 | exact I]).
  set (s4 := PWMAudioOutput.emit _ s3).
  assert (H4 : PWMAudioOutput.codes_valid s4)
    by (apply codes_valid_emit; [exact H3 | exact I]).
  set (s5 := PWMAudioOutput.emit _ s4).
  assert (H5 : PWMAudioOutput.codes_valid s5)
    by (apply codes_valid_emit; [exact H4 | exact I]).
  set (s6 := PWMAudioOutput.emit _ s5).
  assert (H6 : PWMAudioOutput.codes_valid s6)
    by (apply codes_valid_emit; [exact H5 | apply center_valid]).
  set (s7 := PWMAudioOutput.emit _ s6).
  assert (H7 : PWMAudioOutput.codes_valid s7)
    by (apply codes_valid_emit; [exact H6 | exact I]).
  set (s8 := PWMAudioOutput.emit _ s7).
  assert (H8 : PWMAudioOutput.codes_valid s8)
    by (apply codes_valid_emit; [exact H7 | exact I]).
  destruct (alarm_in_us _); cbn [snd]; exact H8.
Qed.

Lemma codes_valid_interrupt (invoke : Callback -> Q)
    (s : PWMAudioOutput.t Callback) :
  PWMAudioOutput.codes_valid s ->
  PWMAudioOutput.codes_valid (PWMAudioOutput.handleTimerInterrupt invoke s).
Proof.
  intro H. unfold PWMAudioOutput.handleTimerInterrupt,
    PWMAudioOutput.writeSample. cbv zeta.
  set (sample := match PWMAudioOutput.callback_ s with
                 | Some callback => invoke callback
                 | None => 0
                 end).
  set (s1 := PWMAudioOutput.emit _ s).
  assert (H1 : PWMAudioOutput.codes_valid s1)
    by (apply codes_valid_emit; [exact H | apply sampleToPWM_range]).
  destruct (PWMAudioOutput.timer_active_ s1); [|exact H1].
  apply codes_valid_emit; [exact H1 | exact I].
Qed.

End Output.

(** X15: [begin] stores the whole number of microseconds
    [1000000 / sample_rate] as the alarm period, rounded down: the period
    times the rate is at most one second and one microsecond more would
    exceed it.  At the default rate of 22050 Hz the period is 45 us, the
    period of 22222 Hz, while [getSampleRate] reports 22050; above 1 MHz
    the period is 0. *)
Theorem timer_period_rounds_down (Callback : Type) (alarm_in_us : Z -> bool)
    (pin sample_rate : Z) (s : PWMAudioOutput.t Callback)
    (Hrate : (0 < sample_rate)%Z) :
  let s' := snd (PWMAudioOutput.begin alarm_in_us pin sample_rate s) in
  let period := PWMAudioOutput.timer_period_us_ s' in
  (period * sample_rate <= 1000000 < (period + 1) * sample_rate)%Z
  /\ PWMAudioOutput.getSampleRate s' = sample_rate
  /\ PWMAudioOutput.getOutputPin s' = pin
  /\ (sample_rate = SAMPLE_RATE -> period = 45%Z)
  /\ ((1000000 < sample_rate)%Z -> period = 0%Z).
Proof.
  intros s' period.
  assert (E : period = (1000000 / sample_rate)%Z
              /\ PWMAudioOutput.getSampleRate s' = sample_rate
              /\ PWMAudioOutput.getOutputPin s' = pin).
  { unfold period, s', PWMAudioOutput.begin, PWMAudioOutput.setupTimer.
    cbv zeta. destruct (alarm_in_us _); cbn; repeat split. }
  destruct E as (E & E1 & E2). rewrite E.
  pose proof (Z.mul_div_le 1000000 sample_rate Hrate) as D1.
  pose proof (Z.mul_succ_div_gt 1000000 sample_rate Hrate) as D2.
  split; [lia|]. split; [exact E1|]. split; [exact E2|].
  split.
  - intros ->. reflexivity.
  - intro H. apply Z.div_small. lia.
Qed.

Lemma timer_period_rounds_down_witness :
  (0 < 44100)%Z
  /\ PWMAudioOutput.timer_period_us_
       (snd (PWMAudioOutput.begin (fun _ => true) 1 44100
               (PWMAudioOutput.init unit)))
     = 22%Z.
Proof.
  assert (H : (0 < 44100)%Z) by reflexivity.
  split; [exact H|].
  pose proof (timer_period_rounds_down unit (fun _ => true) 1 44100
                (PWMAudioOutput.init unit) H) as [B _].
  cbv zeta in B. lia.
Defined.



Lemma engine_step_codes (User : Type) (alarm_in_us : Z -> bool)
    (c : AudioEngine.call User) (e : AudioEngine.t User) :
  PWMAudioOutput.codes_valid (AudioEngine.pwm_ e) ->
  PWMAudioOutput.codes_valid
    (AudioEngine.pwm_ (AudioEngine.step alarm_in_us c e)).
Proof.
  intro H.
  assert (Hend : PWMAudioOutput.codes_valid
                   (AudioEngine.pwm_ (AudioEngine.end_ e))).
  { unfold AudioEngine.end_. cbn [AudioEngine.pwm_].
    destruct (AudioEngine.output_ e); [apply codes_valid_end, H | exact H]. }
  destruct c; cbn [AudioEngine.step].
  - unfold AudioEngine.begin.
    set (e1 := if AudioEngine.initialized_ e then AudioEngine.end_ e else e).
    assert (H1 : PWMAudioOutput.codes_valid (AudioEngine.pwm_ e1)).
    { unfold e1. destruct (AudioEngine.initialized_ e); assumption. }
    pose proof (codes_valid_begin _ alarm_in_us output_pin sample_rate
                  (AudioEngine.pwm_ e1) H1) as H2.
    destruct (PWMAudioOutput.begin alarm_in_us output_pin sample_rate
                (AudioEngine.pwm_ e1)) as [ok pwm].
    cbn [snd] in H2. destruct ok; cbn [snd AudioEngine.pwm_]; exact H2.
  - exact H.
  - exact Hend.
  - unfold AudioEngine.timerISR. cbn [AudioEngine.pwm_].
    apply codes_valid_interrupt, H.
Qed.

(** X17: whatever an application does with the engine -- [begin] with any
    nonzero rate and any pin, accepted by the board or not, [setCallback],
    [end], and any number of alarm firings with callbacks that return any
    value at all -- every code ever written to the output pin is a valid
    12-bit duty, 0 .. 4095. *)
Theorem engine_codes_always_valid (User : Type) (alarm_in_us : Z -> bool)
    (cs : list (AudioEngine.call User))
    (Hcs : Forall AudioEngine.valid_call cs) :
  Forall (fun c => (0 <= c <= 4095)%Z)
         (PWMAudioOutput.written_codes
            (AudioEngine.pwm_
               (AudioEngine.run alarm_in_us cs (AudioEngine.init User)))).
Proof.
  change (PWMAudioOutput.codes_valid
            (AudioEngine.pwm_
               (AudioEngine.run alarm_in_us cs (AudioEngine.init User)))).
  assert (G : forall e : AudioEngine.t User,
             PWMAudioOutput.codes_valid (AudioEngine.pwm_ e) ->
             PWMAudioOutput.codes_valid
               (AudioEngine.pwm_ (AudioEngine.run alarm_in_us cs e))).
  { unfold AudioEngine.run.
    induction Hcs as [|c cs Hc Hcs IH]; intros e He; cbn [fold_left];
      [exact He|].
    apply IH, engine_step_codes, He. }
  apply G. constructor.
Qed.

Lemma engine_codes_always_valid_witness :
  let cs := [AudioEngine.Begin unit 22050 1;
             AudioEngine.SetCallback unit (Some tt);
             AudioEngine.Fire unit (fun _ => 5 # 2);
             AudioEngine.Fire unit (fun _ => - (7 # 3));
             AudioEngine.End_ unit] in
  Forall AudioEngine.valid_call cs
  /\ Forall (fun c => (0 <= c <= 4095)%Z)
            (PWMAudioOutput.written_codes
               (AudioEngine.pwm_
                  (AudioEngine.run (fun _ => true) cs
                     (AudioEngine.init unit)))).
Proof.
  intro cs.
  assert (Hcs : Forall AudioEngine.valid_call cs).
  { unfold cs. repeat constructor; discriminate. }
  split; [exact Hcs|].
  exact (engine_codes_always_valid unit (fun _ => true) cs Hcs).
Defined.

(** The codes of that run, newest first: silence at [end], the two
    clipped samples, silence at [begin]. *)
Example engine_run_codes :
  PWMAudioOutput.written_codes
    (AudioEngine.pwm_
       (AudioEngine.run (fun _ => true)
          [AudioEngine.Begin unit 22050 1;
           AudioEngine.SetCallback unit (Some tt);
           AudioEngine.Fire unit (fun _ => 5 # 2);
           AudioEngine.Fire unit (fun _ => - (7 # 3));
           AudioEngine.End_ unit]
          (AudioEngine.init unit)))
  = [2047; 0; 4095; 2047]%Z.
Proof. vm_compute. reflexivity. Qed.

(** X18: [begin] on an engine that is already initialised goes through
    [end], which forgets the user's callback: after
    begin / setCallback / begin the engine has no callback and the next
    firing writes the centre code, whatever the forgotten callback would
    have returned.  A callback set before the first [begin] is kept. *)
Theorem engine_begin_again_forgets_callback (User : Type)
    (alarm_in_us : Z -> bool) (sample_rate output_pin : Z)
    (callback : User) (invoke : User -> Q) (e : AudioEngine.t User)
    (Hcall : AudioEngine.valid_call
               (AudioEngine.Begin User sample_rate output_pin)) :
  AudioEngine.user_callback_
    (snd (AudioEngine.begin alarm_in_us sample_rate output_pin e))
  = (if AudioEngine.initialized_ e
     then None else AudioEngine.user_callback_ e)
  /\ (let e1 := AudioEngine.run (fun _ => true)
                  [AudioEngine.Begin User 22050 1;
                   AudioEngine.SetCallback User (Some callback);
                   AudioEngine.Begin User sample_rate output_pin]
                  (AudioEngine.init User) in
      AudioEngine.isActive e1 = true
      /\ AudioEngine.user_callback_ e1 = None
      /\ hd_error (PWMAudioOutput.written_codes
                     (AudioEngine.pwm_ (AudioEngine.timerISR invoke e1)))
         = Some 2047%Z)
  /\ (let e2 := AudioEngine.run (fun _ => true)
                  [AudioEngine.SetCallback User (Some callback);
                   AudioEngine.Begin User sample_rate output_pin]
                  (AudioEngine.init User) in
      AudioEngine.user_callback_ e2 = Some callback
      /\ hd_error (PWMAudioOutput.written_codes
                     (AudioEngine.pwm_ (AudioEngine.timerISR invoke e2)))
         = Some (PWMAudioOutput.sampleToPWM (invoke callback))).
Proof.
  split.
  { unfold AudioEngine.begin.
    destruct (AudioEngine.initialized_ e);
      destruct (PWMAudioOutput.begin _ _ _ _) as [[|] pwm]; reflexivity. }
  split.
  - cbv zeta. repeat split.
  - cbv zeta. repeat split.
Qed.

Lemma engine_begin_again_forgets_callback_witness :
  let e := AudioEngine.run (fun _ => true)
             [AudioEngine.Begin unit 22050 1;
              AudioEngine.SetCallback unit (Some tt)]
             (AudioEngine.init unit) in
  AudioEngine.valid_call (AudioEngine.Begin unit 44100 2)
  /\ AudioEngine.user_callback_ e = Some tt
  /\ AudioEngine.user_callback_
       (snd (AudioEngine.begin (fun _ => true) 44100 2 e)) = None.
Proof.
  intro e.
  assert (H : AudioEngine.valid_call (AudioEngine.Begin unit 44100 2)).
  { cbn. repeat split; try discriminate; reflexivity. }
  split; [exact H|]. split; [reflexivity|].
  exact (proj1 (engine_begin_again_forgets_callback unit (fun _ => true)
                  44100 2 tt (fun _ => 1) e H)).
Defined.

(** X19: [end] stops the engine: it is no longer active or initialised,
    both callbacks are cleared, and when an output exists the alarm is
    cancelled if it was running and the pin is left at the centre code.
    A firing that still arrives afterwards writes the centre code once
    and does not re-arm the alarm. *)
Theorem engine_end_stops_output (User : Type) (invoke : User -> Q)
    (e : AudioEngine.t User) :
  let e' := AudioEngine.end_ e in
  AudioEngine.isActive e' = false
  /\ AudioEngine.initialized_ e' = false
  /\ AudioEngine.user_callback_ e' = None
  /\ (AudioEngine.output_ e = true ->
      PWMAudioOutput.isActive (AudioEngine.pwm_ e') = false
      /\ PWMAudioOutput.callback_ (AudioEngine.pwm_ e') = None
      /\ PWMAudioOutput.log_ (AudioEngine.pwm_ e')
         = (if (PWMAudioOutput.output_pin_ (AudioEngine.pwm_ e) =? 255)%Z
            then []
            else [PWMAudioOutput.AnalogWrite
                    (PWMAudioOutput.output_pin_ (AudioEngine.pwm_ e))
                    PWMAudioOutput.PWM_CENTER])
           ++ (if PWMAudioOutput.isActive (AudioEngine.pwm_ e)
               then [PWMAudioOutput.CancelAlarm
                       PWMAudioOutput.AUDIO_ALARM_NUM]
               else [])
           ++ PWMAudioOutput.log_ (AudioEngine.pwm_ e)
      /\ PWMAudioOutput.log_
           (AudioEngine.pwm_ (AudioEngine.timerISR invoke e'))
         = PWMAudioOutput.AnalogWrite
             (PWMAudioOutput.output_pin_ (AudioEngine.pwm_ e))
             PWMAudioOutput.PWM_CENTER
           :: PWMAudioOutput.log_ (AudioEngine.pwm_ e')).
Proof.
  intro e'. unfold e', AudioEngine.end_, AudioEngine.isActive.
  cbn [AudioEngine.initialized_ AudioEngine.user_callback_
       AudioEngine.output_ AudioEngine.pwm_ andb].
  split; [reflexivity|]. split; [reflexivity|]. split; [reflexivity|].
  intro Hout. rewrite Hout.
  unfold AudioEngine.timerISR, AudioEngine.audioCallback,
    PWMAudioOutput.handleTimerInterrupt, PWMAudioOutput.writeSample,
    PWMAudioOutput.end_, PWMAudioOutput.stopTimer, PWMAudioOutput.isActive,
    PWMAudioOutput.setCallback.
  cbv zeta.
  destruct (AudioEngine.pwm_ e) as [pin rate cb active period log].
  cbn [PWMAudioOutput.timer_active_ PWMAudioOutput.output_pin_
       PWMAudioOutput.log_ PWMAudioOutput.callback_
       PWMAudioOutput.sample_rate_ PWMAudioOutput.timer_period_us_
       PWMAudioOutput.emit AudioEngine.pwm_ AudioEngine.user_callback_].
  destruct active;
    cbn [PWMAudioOutput.timer_active_ PWMAudioOutput.output_pin_
         PWMAudioOutput.log_ PWMAudioOutput.callback_
         PWMAudioOutput.sample_rate_ PWMAudioOutput.timer_period_us_
         PWMAudioOutput.emit];
    destruct (pin =? 255)%Z;
    cbn [PWMAudioOutput.timer_active_ PWMAudioOutput.output_pin_
         PWMAudioOutput.log_ PWMAudioOutput.callback_
         PWMAudioOutput.sample_rate_ PWMAudioOutput.timer_period_us_
         PWMAudioOutput.emit app];
    repeat split.
Qed.

Lemma engine_end_stops_output_witness :
  let e := snd (AudioEngine.begin (fun _ => true) 22050 1
                  (AudioEngine.init unit)) in
  AudioEngine.output_ e = true
  /\ PWMAudioOutput.isActive (AudioEngine.pwm_ (AudioEngine.end_ e)) = false.
Proof.
  intro e.
  assert (H : AudioEngine.output_ e = true) by reflexivity.
  split; [exact H|].
  exact (proj1 (proj2 (proj2 (proj2
           (engine_end_stops_output unit (fun _ => 1) e))) H)).
Defined.
